(** * Google-Foobar: Ion Flux Relabelling (2.5) and Doomsday Fuel (3.1)

    A shallow embedding of the two solutions of the repository and the
    properties their specification states about them.

    - [IonFlux] embeds [src/2.5_Ion_Flux_Relabelling.py]: the function
      [solution(h, q)] (the specification calls it [ancestor_labels]) and its
      inner recursive [dfs], with the [OrderedDict] it mutates.
    - [Doomsday] embeds [src/3.1_Doomsday_Fuel.py]: [solution(m)] (the
      specification calls it [absorption_fractions]) with [split_matrix],
      [find_f_submatrix] and [probabilities].

    Conventions.  The sources are read as Python 3: ints are unbounded ([Z]),
    [/] is true division and yields a float, [//] and [%] are floor division
    and its remainder ([Z.div], [Z.modulo]).  Floats are IEEE 754 binary64
    values, taken from [SpecFloat] with precision 53 and maximal exponent
    1024.  Exceptions are results of an error monad.  The interpreter's
    recursion limit is not modelled.

    The definitions come first (the code, followed by the vocabulary the
    properties are stated in), the lemmas and theorems after them. *)

From Stdlib Require Import ZArith List Bool Lia.
From Stdlib Require Import Floats.SpecFloat.
From Equations Require Import Equations.
Import ListNotations.

Local Open Scope Z_scope.

(** ** 2.5 Ion Flux Relabelling *)

Module IonFlux.

(** *** The [OrderedDict] of the source

    [parentLabels] maps converter labels to parent labels and remembers the
    order in which keys were first inserted.  An association list whose keys
    are kept distinct by [od_set] has exactly this behaviour. *)

Definition odict := list (Z * Z).

(** [d[k]], for a key that may be absent. *)
Fixpoint od_get (k : Z) (d : odict) : option Z :=
  match d with
  | [] => None
  | (k', v) :: d' => if k' =? k then Some v else od_get k d'
  end.

(** [k in d] *)
Definition od_mem (k : Z) (d : odict) : bool :=
  match od_get k d with Some _ => true | None => false end.

(** [d[k] = v]: an existing key keeps its position, a new key goes last. *)
Fixpoint od_set (k v : Z) (d : odict) : odict :=
  match d with
  | [] => [(k, v)]
  | (k', v') :: d' => if k' =? k then (k', v) :: d' else (k', v') :: od_set k v d'
  end.

(** [OrderedDict((converter, -1) for converter in q)] *)
Definition od_init (q : list Z) : odict :=
  fold_left (fun d converter => od_set converter (-1) d) q [].

(** [list(d.values())] *)
Definition od_values (d : odict) : list Z := map snd d.

Definition od_keys (d : odict) : list Z := map fst d.

(** [if node in parentLabels and parentLabels[node] == -1:
       parentLabels[node] = parentNode] *)
Definition set_parent (node parentNode : Z) (parentLabels : odict) : odict :=
  if od_mem node parentLabels then
    match od_get node parentLabels with
    | Some v => if v =? -1 then od_set node parentNode parentLabels else parentLabels
    | None => parentLabels
    end
  else parentLabels.

(** *** [dfs]

    The inner function of [solution].  It mutates the enclosing
    [parentLabels]; here the dictionary is threaded through the calls.  The
    recursion is on [subtreeSize], halved by [>> 1] at every level. *)

Equations? dfs (subtreeSize offset : Z) (parentLabels : odict) : odict
  by wf (Z.to_nat subtreeSize) lt :=
dfs subtreeSize offset parentLabels with Z_lt_dec subtreeSize 1 => {
  | left _ := parentLabels
  | right _ :=
      let subtreeSize' := Z.shiftr subtreeSize 1 in
      let leftNode := offset + subtreeSize' in
      let rightNode := leftNode + subtreeSize' in
      let parentNode := rightNode + 1 in
      let parentLabels1 := set_parent leftNode parentNode parentLabels in
      let parentLabels2 := set_parent rightNode parentNode parentLabels1 in
      let parentLabels3 := dfs subtreeSize' offset parentLabels2 in
      dfs subtreeSize' leftNode parentLabels3 }.
Proof.
  all: subst subtreeSize'; rewrite Z.shiftr_div_pow2 by lia; change (2 ^ 1) with 2;
    assert (subtreeSize / 2 < subtreeSize) by (apply Z.div_lt; lia);
    assert (0 <= subtreeSize / 2) by (apply Z.div_pos; lia); lia.
Qed.

(** [solution(h, q)].  For [h < 0] Python computes [2**h] in floats: the
    result lies between 0 and 1, so [maxSize] is below 1 and [dfs] returns
    at once; the integer power of Rocq gives [2 ^ h = 0] there, and [dfs]
    takes the same branch.  Python must convert [h] to a float for this,
    which raises [OverflowError] when [h <= -(2^1024 - 2^970)]; the
    embedding has no exception for it, so a statement about a height below
    1 is made for [h] above that bound. *)
Definition solution (h : Z) (q : list Z) : list Z :=
  let maxSize := 2 ^ h - 1 in
  let parentLabels := od_init q in
  let subtreeSize := maxSize in
  od_values (dfs subtreeSize 0 parentLabels).
(** *** The converter tree of the problem statement

    A perfect binary tree whose nodes are numbered by a post-order traversal.
    [postorder_tree k next] builds the tree of height [k], handing out the
    labels [next], [next + 1], ... in post-order (left subtree, right subtree,
    then the node), and returns the first unused label. *)

Inductive tree : Type :=
| Empty
| Node (l r : tree) (label : Z).

Fixpoint postorder_tree (k : nat) (next : Z) : tree * Z :=
  match k with
  | O => (Empty, next)
  | S k' =>
      let '(l, next1) := postorder_tree k' next in
      let '(r, next2) := postorder_tree k' next1 in
      (Node l r next2, next2 + 1)
  end.

(** The tree of [h] levels, labelled from 1. *)
Definition flux_tree (h : Z) : tree := fst (postorder_tree (Z.to_nat h) 1).

Definition root_label (t : tree) : option Z :=
  match t with Empty => None | Node _ _ x => Some x end.

Definition has_root (x : Z) (t : tree) : bool :=
  match t with Empty => false | Node _ _ y => y =? x end.

(** Labels in the order a post-order traversal visits them. *)
Fixpoint postorder (t : tree) : list Z :=
  match t with
  | Empty => []
  | Node l r x => postorder l ++ postorder r ++ [x]
  end.

(** The label of the node that sits on top of the node labelled [x]. *)
Fixpoint parent_of (t : tree) (x : Z) : option Z :=
  match t with
  | Empty => None
  | Node l r p =>
      if has_root x l || has_root x r then Some p
      else match parent_of l x with
           | Some a => Some a
           | None => parent_of r x
           end
  end.

(** The labels of the two nodes directly below the node labelled [p]. *)
Fixpoint children_of (t : tree) (p : Z) : option (Z * Z) :=
  match t with
  | Empty => None
  | Node l r y =>
      if y =? p then
        match root_label l, root_label r with
        | Some a, Some b => Some (a, b)
        | _, _ => None
        end
      else match children_of l p with
           | Some c => Some c
           | None => children_of r p
           end
  end.

(** Distinct labels of a query list, in order of first occurrence. *)
Fixpoint uniq_from (seen : list Z) (q : list Z) : list Z :=
  match q with
  | [] => []
  | x :: q' =>
      if existsb (Z.eqb x) seen then uniq_from seen q'
      else x :: uniq_from (x :: seen) q'
  end.

Definition first_occurrences (q : list Z) : list Z := uniq_from [] q.

(** What one call of [dfs] on a subtree of height [k] does to the entry of
    key [x] whose current value is [v]. *)
Fixpoint step (k : nat) (offset x v : Z) : Z :=
  match k with
  | O => v
  | S k' =>
      let half := 2 ^ Z.of_nat k' - 1 in
      let leftNode := offset + half in
      let rightNode := leftNode + half in
      let parentNode := rightNode + 1 in
      let v1 := if (x =? leftNode) && (v =? -1) then parentNode else v in
      let v2 := if (x =? rightNode) && (v1 =? -1) then parentNode else v1 in
      step k' leftNode x (step k' offset x v2)
  end.
(** The post-order tree of height [k] whose first label is [next]. *)
Definition subtree (k : nat) (next : Z) : tree := fst (postorder_tree k next).

End IonFlux.

(** ** 3.1 Doomsday Fuel *)

Module Doomsday.

(** *** Exceptions

    The exceptions the operations of the code can raise: [IndexError] from
    [m[row][col]], [ZeroDivisionError] and [OverflowError] from arithmetic,
    [ValueError] and [OverflowError] from [Fraction] applied to a NaN or an
    infinity, [ValueError] from numpy for operands whose shapes do not fit,
    and numpy's [LinAlgError] ("Singular matrix").  [OutOfFuel] is not a Python
    exception: it marks the bound put on the two [while] loops below, and
    [DoomsdayFacts.solution_outcome] shows that it is never the outcome. *)

Inductive exn : Type :=
| IndexError
| ZeroDivisionError
| OverflowError
| ValueError
| LinAlgError
| OutOfFuel.

Inductive result (A : Type) : Type :=
| Ok (a : A)
| Raise (e : exn).
Arguments Ok {A} a.
Arguments Raise {A} e.

Definition bind {A B : Type} (r : result A) (f : A -> result B) : result B :=
  match r with
  | Ok a => f a
  | Raise e => Raise e
  end.

Notation "x <- c ;; k" := (bind c (fun x => k))
  (at level 61, c at next level, right associativity).
Notation "' p <- c ;; k" := (bind c (fun x => let 'p := x in k))
  (at level 61, p pattern, c at next level, right associativity).

Fixpoint mapM {A B : Type} (f : A -> result B) (l : list A) : result (list B) :=
  match l with
  | [] => Ok []
  | a :: l' => b <- f a ;; bs <- mapM f l' ;; Ok (b :: bs)
  end.

(** [l[i]] for [i >= 0] *)
Definition index {A : Type} (l : list A) (i : nat) : result A :=
  match nth_error l i with
  | Some a => Ok a
  | None => Raise IndexError
  end.

(** [a // b] on ints *)
Definition floor_div (a b : Z) : result Z :=
  if b =? 0 then Raise ZeroDivisionError else Ok (a / b).

(** *** Python floats: IEEE 754 binary64, round to nearest even *)

Definition prec : Z := 53.
Definition emax : Z := 1024.
Definition float : Type := spec_float.

Definition fadd : float -> float -> float := SFadd prec emax.
Definition fsub : float -> float -> float := SFsub prec emax.
Definition fmul : float -> float -> float := SFmul prec emax.
Definition fdiv : float -> float -> float := SFdiv prec emax.
Definition fzero : float := S754_zero false.
Definition fone : float := SFone prec emax.

Definition is_zero (x : float) : bool :=
  match x with S754_zero _ => true | _ => false end.

(** [abs(x) < abs(y)] *)
Definition abs_lt (x y : float) : bool := SFltb (SFabs x) (SFabs y).

(** [float(z)] *)
Definition float_of_int (z : Z) : result float :=
  match binary_normalize prec emax z 0 false with
  | S754_infinity _ => Raise OverflowError
  | x => Ok x
  end.

(** [z / y] for an int [z] and a float [y] *)
Definition int_div_float (z : Z) (y : float) : result float :=
  x <- float_of_int z ;;
  if is_zero y then Raise ZeroDivisionError else Ok (fdiv x y).

(** [a / b] for two ints (true division, correctly rounded) *)
Definition true_div (a b : Z) : result float :=
  match a, b with
  | _, Z0 => Raise ZeroDivisionError
  | Z0, _ => Ok (S754_zero (b <? 0))
  | Zpos pa, Zpos pb | Zneg pa, Zneg pb =>
      match fdiv (S754_finite false pa 0) (S754_finite false pb 0) with
      | S754_infinity _ => Raise OverflowError
      | x => Ok x
      end
  | Zpos pa, Zneg pb | Zneg pa, Zpos pb =>
      match fdiv (S754_finite true pa 0) (S754_finite false pb 0) with
      | S754_infinity _ => Raise OverflowError
      | x => Ok x
      end
  end.

(** [int(x)]: truncation towards zero *)
Definition int_of_float (x : float) : result Z :=
  match x with
  | S754_zero _ => Ok 0
  | S754_infinity _ => Raise OverflowError
  | S754_nan => Raise ValueError
  | S754_finite s m e =>
      let a := if 0 <=? e then Zpos m * 2 ^ e else Zpos m / 2 ^ (- e) in
      Ok (if s then - a else a)
  end.

(** *** [fractions.Fraction]

    The part of Python's standard [fractions] module the source uses:
    construction from a float and [limit_denominator]. *)

Record Fraction : Type := mkFraction { numerator : Z; denominator : Z }.

(** [Fraction(n, d)]: lowest terms, positive denominator *)
Definition fraction (n d : Z) : result Fraction :=
  if d =? 0 then Raise ZeroDivisionError
  else
    let g := Z.gcd n d in
    let g := if d <? 0 then - g else g in
    Ok (mkFraction (n / g) (d / g)).

(** [Fraction(x)] for a float [x]: the exact value, from
    [x.as_integer_ratio()] *)
Definition fraction_of_float (x : float) : result Fraction :=
  match x with
  | S754_zero _ => Ok (mkFraction 0 1)
  | S754_infinity _ => Raise OverflowError
  | S754_nan => Raise ValueError
  | S754_finite s m e =>
      let n := if s then Zneg m else Zpos m in
      if 0 <=? e then Ok (mkFraction (n * 2 ^ e) 1)
      else fraction n (2 ^ (- e))
  end.

(** The [while True] loop of [limit_denominator]; it leaves through
    [break] with the values of [p0, q0, p1, q1, n, d].  [d] is replaced by
    the remainder [n mod d] at each turn, so the number of turns is at most
    logarithmic in [d]; [fuel] bounds it. *)
Fixpoint limit_loop (fuel : nat) (max_denominator p0 q0 p1 q1 n d : Z)
  : result (Z * Z * Z * Z * Z * Z) :=
  match fuel with
  | O => Raise OutOfFuel
  | S fuel' =>
      a <- floor_div n d ;;
      let q2 := q0 + a * q1 in
      if max_denominator <? q2 then Ok (p0, q0, p1, q1, n, d)
      else limit_loop fuel' max_denominator p1 q1 (p0 + a * p1) q2 d (n - a * d)
  end.

(** Twice the bit length of [d], and two more: enough turns for any
    remainder sequence that starts at [d]. *)
Definition loop_bound (d : Z) : nat := (2 * Z.to_nat (Z.log2 (Z.abs d)) + 4)%nat.

(** [abs(x - self) <= abs(y - self)] on exact fractions *)
Definition closer_or_equal (x y self : Fraction) : bool :=
  let dist (b : Fraction) :=
    (* |b - self| * denominator b * denominator self *)
    Z.abs (numerator b * denominator self - numerator self * denominator b) in
  dist x * denominator y <=? dist y * denominator x.

(** [self.limit_denominator(max_denominator)] *)
Definition limit_denominator (self : Fraction) (max_denominator : Z) : result Fraction :=
  if max_denominator <? 1 then Raise ValueError
  else if denominator self <=? max_denominator then Ok self
  else
    '(p0, q0, p1, q1, n, d) <-
      limit_loop (loop_bound (denominator self)) max_denominator 0 1 1 0
        (numerator self) (denominator self) ;;
    k <- floor_div (max_denominator - q0) q1 ;;
    bound1 <- fraction (p0 + k * p1) (q0 + k * q1) ;;
    bound2 <- fraction p1 q1 ;;
    if closer_or_equal bound2 bound1 self then Ok bound2 else Ok bound1.

(** *** numpy

    [np.identity], [np.subtract], [np.linalg.inv] and [np.dot] on float64
    matrices, given as lists of rows.

    [np.subtract] broadcasts its operands: an axis of length 1 is repeated
    to the length of the other operand's axis, any other difference raises
    [ValueError], as does a list whose rows differ in length (numpy 1.24
    and later).

    [np.linalg.inv] raises [LinAlgError] for a matrix that is not square.
    For a square one it calls LAPACK's [gesv] with the identity as
    right-hand side: an LU factorisation with partial pivoting, [LinAlgError]
    when a pivot is exactly zero, then a forward and a back substitution.
    LAPACK fixes the pivoting rule, not the order of the floating-point
    operations, and near a singular matrix that order decides whether a
    pivot comes out as zero.  The factorisation below follows the
    unblocked routine of OpenBLAS, the library numpy's binary
    distributions are built with: it goes column by column, and for each
    entry accumulates the products of multipliers and entries above with
    fused multiply-adds before subtracting the sum; multipliers and
    solutions are scaled by the reciprocal of the pivot.  (Beyond four
    unknowns OpenBLAS hands part of each column to vectorised kernels,
    which may group the products differently.)  The substitutions and
    [np.dot] take the products one at a time, in the order of the reference
    BLAS.  For systems of one or two unknowns the factorisation has no sum
    of more than one product, so its pivots do not depend on that order.
    The statements below that evaluate the code do so on systems of one or
    two unknowns, and on one of three unknowns ([trapped_leak]) whose
    inversion meets no rounding. *)

Definition matrix : Type := list (list float).

Definition identity (n : nat) : matrix :=
  map (fun i => map (fun j => if Nat.eqb i j then fone else fzero) (seq 0 n)) (seq 0 n).

Fixpoint map2 {A B C : Type} (f : A -> B -> C) (l : list A) (l' : list B) : list C :=
  match l, l' with
  | a :: t, b :: t' => f a b :: map2 f t t'
  | _, _ => []
  end.

(** The second dimension of [np.array(b)]: the common length of the rows,
    [None] when they differ. *)
Definition columns (b : matrix) : option nat :=
  match b with
  | [] => Some O
  | r :: b' =>
      if forallb (fun r' => Nat.eqb (length r') (length r)) b' then Some (length r)
      else None
  end.

(** The broadcasting rule for one axis. *)
Definition broadcast (x y : nat) : option nat :=
  if Nat.eqb x y then Some x
  else if Nat.eqb x 1 then Some y
  else if Nat.eqb y 1 then Some x
  else None.

(** An axis of length 1 repeated [n] times, any other axis as it is. *)
Definition stretch {A : Type} (n : nat) (l : list A) : list A :=
  match l with
  | [x] => repeat x n
  | _ => l
  end.

(** [np.subtract(a, b)] for two-dimensional operands *)
Definition subtract (a b : matrix) : result matrix :=
  match columns a, columns b with
  | Some ca, Some cb =>
      match broadcast (length a) (length b), broadcast ca cb with
      | Some r, Some c =>
          Ok (map2 (fun arow brow => map2 fsub (stretch c arow) (stretch c brow))
                   (stretch r a) (stretch r b))
      | _, _ => Raise ValueError
      end
  | _, _ => Raise ValueError
  end.

(** [x * y + z] with a single rounding.  When an operand of the product
    is zero, infinite or not a number the product is exact, and so is the
    sum when [z] is zero. *)
Definition fma (x y z : float) : float :=
  match x, y, z with
  | S754_finite sx mx ex, S754_finite sy my ey, S754_finite sz mz ez =>
      let e := Z.min (ex + ey) ez in
      binary_normalize prec emax
        (cond_Zopp (xorb sx sy) (Zpos (fst (shl_align (mx * my) (ex + ey) e))) +
         cond_Zopp sz (Zpos (fst (shl_align mz ez e))))
        e false
  | S754_finite _ _ _, S754_finite _ _ _, S754_zero _ => fmul x y
  | _, _, _ => fadd (fmul x y) z
  end.

(** One row of the system [A X = B] during the factorisation: the entries
    already computed (the multipliers of [L] left of the diagonal, then the
    entries of [U] from the diagonal on), the entries of [A] in the columns
    still to come, and the row of [B]. *)
Record sysrow : Type := mksysrow {
  factored : list float;
  pending : list float;
  rhs : list float
}.

(** The entry of the row in the current column. *)
Definition lead (r : sysrow) : float :=
  match pending r with x :: _ => x | [] => fzero end.

(** The row with the current column done: its entry is [x]. *)
Definition push (x : float) (r : sysrow) : sysrow :=
  mksysrow (factored r ++ [x]) (tl (pending r)) (rhs r).

(** [sum ls[k] * us[k]], each product added to the running sum with one
    rounding. *)
Definition dot_fused (ls us : list float) : float :=
  fold_left (fun t '(l, u) => fma l u t) (combine ls us) fzero.

(** The current column above the diagonal: the entry of each row less the
    products of its multipliers with the entries above it. *)
Fixpoint above (top : list sysrow) (us : list float) : list float :=
  match top with
  | [] => us
  | r :: top' => above top' (us ++ [fsub (lead r) (dot_fused (factored r) us)])
  end.

(** Position of the first entry with the largest absolute value
    ([idamax]). *)
Fixpoint pivot_index (best : float) (besti i : nat) (xs : list float) : nat :=
  match xs with
  | [] => besti
  | x :: xs' =>
      if abs_lt best x then pivot_index x i (S i) xs'
      else pivot_index best besti (S i) xs'
  end.

(** Exchange rows 0 and [p]. *)
Definition swap_rows {A : Type} (p : nat) (rows : list A) : list A :=
  match p, rows with
  | O, _ => rows
  | _, [] => rows
  | S _, r0 :: _ =>
      match nth_error rows p with
      | Some rp => rp :: firstn (p - 1) (tl rows) ++ r0 :: skipn p (tl rows)
      | None => rows
      end
  end.

(** Smallest positive normal number ([dlamch('S')]). *)
Definition sfmin : float := S754_finite false 4503599627370496 (-1074).

(** LU factorisation with row interchanges, one column at each step:
    [top] holds the rows whose pivot has been chosen, [bottom] the others.
    Returns the rows in their final order, each with its multipliers and
    its row of [U]. *)
Fixpoint eliminate (n : nat) (top bottom : list sysrow) : result (list sysrow) :=
  match n with
  | O => Ok (top ++ bottom)
  | S n' =>
      let us := above top [] in
      let top' := map2 push us top in
      let reduced := map (fun r => (fsub (lead r) (dot_fused (factored r) us), r)) bottom in
      let values := map fst reduced in
      match swap_rows (pivot_index (hd fzero values) 0 0 values) reduced with
      | [] => Ok top'
      | (pivot, piv) :: rest =>
          if is_zero pivot then Raise LinAlgError
          else
            let multiplier (x : float) :=
              if abs_lt pivot sfmin then fdiv x pivot
              else fmul x (fdiv fone pivot) in
            eliminate n' (top' ++ [push pivot piv])
                      (map (fun '(x, r) => push (multiplier x) r) rest)
      end
  end.

(** [x - l * u], skipped when [u] is zero. *)
Definition axpy (l : float) (x u : float) : float :=
  if is_zero u then x else fsub x (fmul l u).

(** Forward substitution with the unit lower triangle: row [i] of the
    right-hand side is final, and its multiples are taken off the rows
    below. *)
Fixpoint forward_substitute (n i : nat) (rows : list sysrow) : list sysrow :=
  match n, rows with
  | S n', r :: rest =>
      r :: forward_substitute n' (S i)
             (map (fun r' => mksysrow (factored r') (pending r')
                               (map2 (axpy (nth i (factored r') fzero)) (rhs r') (rhs r)))
                  rest)
  | _, _ => rows
  end.

(** Back substitution with the upper triangle, [i] being the index of the
    first row of [us]: the rows of [X], last unknown first in the
    subtractions. *)
Fixpoint back_substitute (i : nat) (us : list sysrow) : matrix :=
  match us with
  | [] => []
  | r :: us' =>
      let xs := back_substitute (S i) us' in
      let urow := skipn i (factored r) in
      (* subtract x_k * u_ik for k from the last row up *)
      let b' := fold_right (fun '(u, x) b => map2 (fun bi xi => axpy u bi xi) b x)
                           (rhs r) (combine (tl urow) xs) in
      let reciprocal := fdiv fone (match urow with u :: _ => u | [] => fone end) in
      let x := map (fun b => if is_zero b then b else fmul b reciprocal) b' in
      x :: xs
  end.

(** [np.linalg.inv(a)] *)
Definition inv (a : matrix) : result matrix :=
  let n := length a in
  if forallb (fun row => Nat.eqb (length row) n) a then
    rows <- eliminate n [] (map2 (mksysrow []) a (identity n)) ;;
    Ok (back_substitute 0 (forward_substitute n 0 rows))
  else Raise LinAlgError.

(** [np.dot(a, b)] *)
Definition dot (a b : matrix) : matrix :=
  let width := match b with r :: _ => length r | [] => O end in
  map (fun arow =>
         fold_left (fun acc '(x, brow) => map2 (fun c y => fadd c (fmul x y)) acc brow)
                   (combine arow b) (repeat fzero width))
      a.

(** *** The source *)

(** [sum(row)] *)
Definition sum (row : list Z) : Z := fold_left Z.add row 0.

(** The first loop of [split_matrix]: the rows that sum to zero. *)
Fixpoint find_absorbing (m : list (list Z)) (row : nat) : list nat :=
  match m with
  | [] => []
  | r :: m' =>
      if sum r =? 0 then row :: find_absorbing m' (S row)
      else find_absorbing m' (S row)
  end.

Definition mem (x : nat) (s : list nat) : bool := existsb (Nat.eqb x) s.

(** The loop over [col] for one transient row. *)
Fixpoint split_row (mrow : list Z) (total_transitions : float)
    (absorbing_states : list nat) (cols : list nat) (temp_r temp_q : list float)
  : result (list float * list float) :=
  match cols with
  | [] => Ok (temp_r, temp_q)
  | col :: cols' =>
      x <- index mrow col ;;
      v <- int_div_float x total_transitions ;;
      if mem col absorbing_states
      then split_row mrow total_transitions absorbing_states cols' (temp_r ++ [v]) temp_q
      else split_row mrow total_transitions absorbing_states cols' temp_r (temp_q ++ [v])
  end.

(** The second loop of [split_matrix], over [row]. *)
Fixpoint split_rows (m : list (list Z)) (absorbing_states : list nat)
    (num_of_columns : nat) (rows : list nat) (r_submatrix q_submatrix : matrix)
  : result (matrix * matrix) :=
  match rows with
  | [] => Ok (r_submatrix, q_submatrix)
  | row :: rows' =>
      if mem row absorbing_states
      then split_rows m absorbing_states num_of_columns rows' r_submatrix q_submatrix
      else
        mrow <- index m row ;;
        total_transitions <- float_of_int (sum mrow) ;;
        '(temp_r, temp_q) <-
          split_row mrow total_transitions absorbing_states (seq 0 num_of_columns) [] [] ;;
        split_rows m absorbing_states num_of_columns rows'
          (r_submatrix ++ [temp_r]) (q_submatrix ++ [temp_q])
  end.

Definition split_matrix (m : list (list Z)) : result (matrix * matrix) :=
  let absorbing_states := find_absorbing m 0 in
  let num_of_rows := length m in
  let num_of_columns := length m in
  split_rows m absorbing_states num_of_columns (seq 0 num_of_rows) [] [].

Definition find_f_submatrix (q_submatrix : matrix) : result matrix :=
  let size_of_q := length q_submatrix in
  let identity_matrix := identity size_of_q in
  difference_between_identity_and_q <- subtract identity_matrix q_submatrix ;;
  inv difference_between_identity_and_q.

(** The [while temp_denom] loop: Euclid's algorithm. *)
Fixpoint gcd_loop (fuel : nat) (temp_lcd temp_denom : Z) : result Z :=
  match fuel with
  | O => Raise OutOfFuel
  | S fuel' =>
      if temp_denom =? 0 then Ok temp_lcd
      else gcd_loop fuel' temp_denom (temp_lcd mod temp_denom)
  end.

(** The loop over [denominators] that builds [lcd]. *)
Fixpoint lcd_loop (denominators : list Z) (lcd : Z) : result Z :=
  match denominators with
  | [] => Ok lcd
  | denom :: rest =>
      temp_lcd <- gcd_loop (loop_bound denom) lcd denom ;;
      q <- floor_div lcd temp_lcd ;;
      lcd_loop rest (q * denom)
  end.

Definition probabilities (row : list float) : result (list Z) :=
  fractions <- mapM (fun num => f <- fraction_of_float num ;;
                                limit_denominator f 1000000) row ;;
  let probabilities_for_each_state := map numerator fractions in
  let denominators := map denominator fractions in
  lcd <- lcd_loop denominators 1 ;;
  scaled <- mapM (fun '(p, denom) =>
                    x <- true_div lcd denom ;;
                    k <- int_of_float x ;;
                    Ok (p * k))
                 (combine probabilities_for_each_state denominators) ;;
  Ok (scaled ++ [lcd]).

Definition solution (m : list (list Z)) : result (list Z) :=
  if (length m <=? 1)%nat then Ok [1; 1]
  else
    row0 <- index m 0 ;;
    if sum row0 =? 0 then Ok [1; 1]
    else
      '(r_submatrix, q_submatrix) <- split_matrix m ;;
      f_submatrix <- find_f_submatrix q_submatrix ;;
      let fr_submatrix := dot f_submatrix r_submatrix in
      fr0 <- index fr_submatrix 0 ;;
      probabilities fr0.

(** *** Vocabulary of the specification *)

(** A result that Python itself can produce: a value or one of its
    exceptions, not the model's own [OutOfFuel]. *)
Definition python_outcome {A : Type} (r : result A) : Prop := r <> Raise OutOfFuel.

(** Square: every row is as long as the matrix has rows. *)
Definition is_square (m : list (list Z)) : bool :=
  forallb (fun row => (length row =? length m)%nat) m.

Definition non_negative (m : list (list Z)) : bool :=
  forallb (forallb (fun c => 0 <=? c)) m.

(** State [i] is terminal: its row sums to zero. *)
Definition is_terminal (m : list (list Z)) (i : nat) : bool :=
  match nth_error m i with
  | Some row => sum row =? 0
  | None => false
  end.

(** A transition from [i] to [j] was observed. *)
Definition transition (m : list (list Z)) (i j : nat) : bool :=
  match nth_error m i with
  | Some row => match nth_error row j with
                | Some c => negb (c =? 0)
                | None => false
                end
  | None => false
  end.

(** Some terminal state is reachable from [i] in at most [steps] steps. *)
Fixpoint reaches_terminal (steps : nat) (m : list (list Z)) (i : nat) : bool :=
  is_terminal m i ||
  match steps with
  | O => false
  | S steps' =>
      existsb (fun j => transition m i j && reaches_terminal steps' m j)
              (seq 0 (length m))
  end.

(** Some transient state has no path to any terminal state. *)
Definition non_absorbing (m : list (list Z)) : bool :=
  existsb (fun i => negb (is_terminal m i) && negb (reaches_terminal (length m) m i))
          (seq 0 (length m)).

(** The number of terminal states. *)
Definition terminal_count (m : list (list Z)) : nat :=
  length (filter (is_terminal m) (seq 0 (length m))).

(** Greatest common divisor of all entries. *)
Definition gcd_all (l : list Z) : Z := fold_right Z.gcd 0 l.

(** The number of transient states. *)
Definition transient_count (m : list (list Z)) : nat :=
  length (filter (fun i => negb (is_terminal m i)) (seq 0 (length m))).

(** The body of the first loop of [probabilities]:
    [Fraction(num).limit_denominator()]. *)
Definition recover (num : float) : result Fraction :=
  f <- fraction_of_float num ;; limit_denominator f 1000000.

(** A result that raises, if it raises at all, an exception in [P]. *)
Definition raises_only {A : Type} (P : exn -> Prop) (r : result A) : Prop :=
  forall e, r = Raise e -> P e.

(** The exceptions of Python's arithmetic and conversions. *)
Definition arithmetic (e : exn) : Prop :=
  e = ZeroDivisionError \/ e = OverflowError \/ e = ValueError.

(** The exceptions of the conversions between ints, floats and fractions:
    a number too large for a float, an infinity or a NaN turned into a
    fraction or an int. *)
Definition conversion (e : exn) : Prop := e = OverflowError \/ e = ValueError.

(** The condition of the early return of [solution]:
    [len(m) <= 1 or sum(m[0]) == 0]. *)
Definition early_return (m : list (list Z)) : Prop :=
  (length m <= 1)%nat \/ option_map sum (nth_error m 0) = Some 0.

(** Two chains that never absorb.  In the first, states 0 and 1 send all
    their ore to each other and there is no terminal state.  In the second,
    state 0 sends half of its ore to the terminal state 3 and half to
    state 1, and states 1 and 2 keep theirs between themselves. *)
Definition trapped_cycle : list (list Z) := [[0; 1]; [1; 0]].

Definition trapped_leak : list (list Z) :=
  [[0; 1; 0; 1]; [0; 1; 1; 0]; [0; 3; 4; 0]; [0; 0; 0; 0]].

(** The two matrices the source checks itself against. *)
Definition t1 : list (list Z) :=
  [[0; 2; 1; 0; 0]; [0; 0; 0; 3; 4]; [0; 0; 0; 0; 0]; [0; 0; 0; 0; 0]; [0; 0; 0; 0; 0]].

Definition t2 : list (list Z) :=
  [[0; 1; 0; 0; 0; 1]; [4; 0; 0; 3; 2; 0]; [0; 0; 0; 0; 0; 0]; [0; 0; 0; 0; 0; 0];
   [0; 0; 0; 0; 0; 0]; [0; 0; 0; 0; 0; 0]].

End Doomsday.

(** ** Properties of Ion Flux Relabelling *)

Module IonFluxFacts.
Import IonFlux.

Example solution_doc : solution 3 [1; 4; 7] = [3; 6; -1].
Proof. reflexivity. Qed.

Example solution_t1 : solution 3 [7; 3; 5; 1] = [-1; 7; 6; 3].
Proof. reflexivity. Qed.

Example solution_t2 : solution 5 [19; 14; 28] = [21; 15; 29].
Proof. reflexivity. Qed.

(** *** Dictionary lemmas *)

Lemma od_get_set x k v d :
  od_get x (od_set k v d) = if k =? x then Some v else od_get x d.
Proof.
  induction d as [|[k' v'] d IH]; simpl.
  - reflexivity.
  - destruct (k' =? k) eqn:E; simpl.
    + apply Z.eqb_eq in E; subst k'. destruct (k =? x); reflexivity.
    + rewrite IH. destruct (k' =? x) eqn:E'; [|reflexivity].
      apply Z.eqb_eq in E'; subst k'. rewrite Z.eqb_sym, E. reflexivity.
Qed.

Lemma od_keys_set_present k v d :
  od_mem k d = true -> od_keys (od_set k v d) = od_keys d.
Proof.
  unfold od_mem, od_keys.
  induction d as [|[k' v'] d IH]; simpl; [discriminate|].
  destruct (k' =? k); simpl; [reflexivity|].
  intros H. rewrite IH by exact H. reflexivity.
Qed.

Lemma od_keys_set_absent k v d :
  od_mem k d = false -> od_keys (od_set k v d) = od_keys d ++ [k].
Proof.
  unfold od_mem, od_keys.
  induction d as [|[k' v'] d IH]; simpl; [reflexivity|].
  destruct (k' =? k); simpl; [discriminate|].
  intros H. rewrite IH by exact H. reflexivity.
Qed.

Lemma od_mem_keys k d : od_mem k d = existsb (Z.eqb k) (od_keys d).
Proof.
  unfold od_mem, od_keys.
  induction d as [|[k' v'] d IH]; simpl; [reflexivity|].
  rewrite (Z.eqb_sym k k'). destruct (k' =? k); simpl; [reflexivity | exact IH].
Qed.

Lemma od_get_in k d : In k (od_keys d) -> exists v, od_get k d = Some v.
Proof.
  unfold od_keys.
  induction d as [|[k' v'] d IH]; simpl; [tauto|].
  intros [->|H].
  - rewrite Z.eqb_refl. eauto.
  - destruct (k' =? k); eauto.
Qed.

Lemma od_keys_set_parent node p d : od_keys (set_parent node p d) = od_keys d.
Proof.
  unfold set_parent. destruct (od_mem node d) eqn:M; [|reflexivity].
  destruct (od_get node d); [|reflexivity].
  destruct (z =? -1); [|reflexivity].
  apply od_keys_set_present, M.
Qed.

Lemma od_get_set_parent x node p d :
  od_get x (set_parent node p d) =
  option_map (fun v => if (x =? node) && (v =? -1) then p else v) (od_get x d).
Proof.
  unfold set_parent, od_mem.
  destruct (od_get node d) as [w|] eqn:G.
  - destruct (w =? -1) eqn:W.
    + rewrite od_get_set. rewrite (Z.eqb_sym x node).
      destruct (node =? x) eqn:E.
      * apply Z.eqb_eq in E; subst x. rewrite G. simpl. rewrite W. reflexivity.
      * destruct (od_get x d); reflexivity.
    + destruct (x =? node) eqn:E.
      * apply Z.eqb_eq in E; subst x. rewrite G. simpl. rewrite W. reflexivity.
      * destruct (od_get x d); reflexivity.
  - destruct (x =? node) eqn:E.
    + apply Z.eqb_eq in E; subst x. rewrite G. reflexivity.
    + destruct (od_get x d); reflexivity.
Qed.

(** A dictionary is determined by its keys and the value of each key. *)
Lemma od_values_ext (f : Z -> Z) d :
  NoDup (od_keys d) ->
  (forall x, In x (od_keys d) -> od_get x d = Some (f x)) ->
  od_values d = map f (od_keys d).
Proof.
  unfold od_values, od_keys.
  induction d as [|[k v] d IH]; simpl; intros ND H; [reflexivity|].
  inversion ND as [|? ? Hk ND']; subst.
  f_equal.
  - specialize (H k (or_introl eq_refl)). rewrite Z.eqb_refl in H. congruence.
  - apply IH; [exact ND'|]. intros x Hx.
    specialize (H x (or_intror Hx)).
    destruct (k =? x) eqn:E; [|exact H].
    apply Z.eqb_eq in E; subst x. contradiction.
Qed.

(** *** The initial dictionary *)

Lemma uniq_from_ext seen seen' q :
  (forall x, existsb (Z.eqb x) seen = existsb (Z.eqb x) seen') ->
  uniq_from seen q = uniq_from seen' q.
Proof.
  revert seen seen'. induction q as [|y q IH]; simpl; intros seen seen' H.
  - reflexivity.
  - rewrite <- (H y). destruct (existsb (Z.eqb y) seen); [apply IH, H|].
    f_equal. apply IH. intros x. simpl. rewrite H. reflexivity.
Qed.

Lemma od_init_fold q : forall d,
  od_keys (fold_left (fun d c => od_set c (-1) d) q d)
    = od_keys d ++ uniq_from (od_keys d) q.
Proof.
  induction q as [|x q IH]; intros d; simpl.
  - rewrite app_nil_r. reflexivity.
  - rewrite IH. rewrite <- od_mem_keys.
    destruct (od_mem x d) eqn:M.
    + rewrite od_keys_set_present by exact M. reflexivity.
    + rewrite od_keys_set_absent by exact M. rewrite <- app_assoc. simpl.
      do 2 f_equal. apply uniq_from_ext. intros y.
      rewrite existsb_app. simpl. rewrite orb_false_r, orb_comm. reflexivity.
Qed.

Lemma od_keys_init q : od_keys (od_init q) = first_occurrences q.
Proof. unfold od_init. rewrite od_init_fold. reflexivity. Qed.

Lemma od_get_init_fold q : forall d x v,
  (forall y w, od_get y d = Some w -> w = -1) ->
  od_get x (fold_left (fun d c => od_set c (-1) d) q d) = Some v -> v = -1.
Proof.
  induction q as [|c q IH]; simpl; intros d x v Hd H.
  - eapply Hd, H.
  - eapply IH; [|exact H]. intros y w. rewrite od_get_set.
    destruct (c =? y); [congruence | apply Hd].
Qed.

Lemma od_get_init q x : In x (od_keys (od_init q)) -> od_get x (od_init q) = Some (-1).
Proof.
  intros Hx. destruct (od_get_in _ _ Hx) as [v Hv]. rewrite Hv. f_equal.
  eapply od_get_init_fold; [|exact Hv]. simpl. discriminate.
Qed.

Lemma uniq_from_spec seen q x :
  In x (uniq_from seen q) <-> In x q /\ ~ In x seen.
Proof.
  revert seen. induction q as [|y q IH]; simpl; intros seen; [tauto|].
  destruct (existsb (Z.eqb y) seen) eqn:E.
  - rewrite IH. apply existsb_exists in E. destruct E as [z [Hz E]].
    apply Z.eqb_eq in E; subst z. split; [tauto|].
    intros [[->|H] N]; [contradiction | tauto].
  - simpl. rewrite IH. simpl.
    assert (~ In y seen).
    { intros Hy. assert (existsb (Z.eqb y) seen = true); [|congruence].
      apply existsb_exists. exists y. split; [exact Hy | apply Z.eqb_refl]. }
    destruct (Z.eq_dec y x) as [->|Hne]; tauto.
Qed.

Lemma uniq_from_NoDup seen q : NoDup (uniq_from seen q).
Proof.
  revert seen. induction q as [|y q IH]; simpl; intros seen; [constructor|].
  destruct (existsb (Z.eqb y) seen); [apply IH|].
  constructor; [|apply IH].
  rewrite uniq_from_spec. simpl. tauto.
Qed.

Lemma first_occurrences_NoDup q : NoDup (first_occurrences q).
Proof. apply uniq_from_NoDup. Qed.

Lemma first_occurrences_In q x : In x (first_occurrences q) <-> In x q.
Proof. unfold first_occurrences. rewrite uniq_from_spec. simpl. tauto. Qed.



(** *** [dfs] against [step] *)

Lemma dfs_stop s off d : s < 1 -> dfs s off d = d.
Proof.
  intros H. simp dfs. destruct (Z_lt_dec s 1); [reflexivity | lia].
Qed.

Lemma dfs_go s off d :
  1 <= s ->
  dfs s off d =
  dfs (Z.shiftr s 1) (off + Z.shiftr s 1)
    (dfs (Z.shiftr s 1) off
       (set_parent (off + Z.shiftr s 1 + Z.shiftr s 1) (off + Z.shiftr s 1 + Z.shiftr s 1 + 1)
          (set_parent (off + Z.shiftr s 1) (off + Z.shiftr s 1 + Z.shiftr s 1 + 1) d))).
Proof.
  intros H. rewrite dfs_equation_1 at 1.
  destruct (Z_lt_dec s 1); [lia | reflexivity].
Qed.

Lemma shiftr_size k : Z.shiftr (2 ^ Z.of_nat (S k) - 1) 1 = 2 ^ Z.of_nat k - 1.
Proof.
  rewrite Z.shiftr_div_pow2 by lia. change (2 ^ 1) with 2.
  rewrite Nat2Z.inj_succ, Z.pow_succ_r by lia.
  assert (0 < 2 ^ Z.of_nat k) by (apply Z.pow_pos_nonneg; lia).
  symmetry. apply (Z.div_unique _ _ _ 1); lia.
Qed.

Lemma size_pos k : 1 <= 2 ^ Z.of_nat (S k) - 1.
Proof.
  rewrite Nat2Z.inj_succ, Z.pow_succ_r by lia.
  assert (0 < 2 ^ Z.of_nat k) by (apply Z.pow_pos_nonneg; lia). lia.
Qed.

Lemma dfs_keys k : forall off d,
  od_keys (dfs (2 ^ Z.of_nat k - 1) off d) = od_keys d.
Proof.
  induction k as [|k IH]; intros off d.
  - rewrite dfs_stop by (simpl; lia). reflexivity.
  - rewrite dfs_go by apply size_pos. rewrite shiftr_size.
    rewrite !IH, !od_keys_set_parent. reflexivity.
Qed.

Lemma dfs_get k : forall off d x,
  od_get x (dfs (2 ^ Z.of_nat k - 1) off d) = option_map (step k off x) (od_get x d).
Proof.
  induction k as [|k IH]; intros off d x.
  - rewrite dfs_stop by (simpl; lia). simpl. destruct (od_get x d); reflexivity.
  - rewrite dfs_go by apply size_pos. rewrite shiftr_size.
    rewrite !IH, !od_get_set_parent.
    destruct (od_get x d) as [v|]; reflexivity.
Qed.

(** [solution] answers each distinct label independently, in the order of
    first occurrence. *)
Lemma solution_step h q :
  solution h q = map (fun x => step (Z.to_nat h) 0 x (-1)) (first_occurrences q).
Proof.
  unfold solution.
  assert (E : dfs (2 ^ h - 1) 0 (od_init q)
              = dfs (2 ^ Z.of_nat (Z.to_nat h) - 1) 0 (od_init q)).
  { destruct (Z_lt_dec h 0) as [Hneg|Hpos].
    - rewrite Z.pow_neg_r by exact Hneg.
      rewrite !dfs_stop; [reflexivity | | lia].
      replace (Z.to_nat h) with 0%nat by lia. simpl. lia.
    - rewrite Z2Nat.id by lia. reflexivity. }
  rewrite E, <- od_keys_init, <- (dfs_keys (Z.to_nat h) 0 (od_init q)).
  apply od_values_ext.
  - rewrite dfs_keys, od_keys_init. apply first_occurrences_NoDup.
  - intros x Hx. rewrite dfs_keys in Hx.
    rewrite dfs_get, (od_get_init _ _ Hx). reflexivity.
Qed.

(** *** The shape of the post-order tree *)

Lemma postorder_tree_next k : forall n,
  snd (postorder_tree k n) = n + (2 ^ Z.of_nat k - 1).
Proof.
  induction k as [|k IH]; intros n; simpl postorder_tree.
  - simpl. lia.
  - specialize (IH n) as IH1.
    destruct (postorder_tree k n) as [l n1]. simpl in IH1. subst n1.
    specialize (IH (n + (2 ^ Z.of_nat k - 1))) as IH2.
    destruct (postorder_tree k _) as [r n2]. simpl in IH2. subst n2.
    simpl snd. rewrite Nat2Z.inj_succ, Z.pow_succ_r by lia. lia.
Qed.

Lemma subtree_S k n :
  subtree (S k) n =
  Node (subtree k n) (subtree k (n + (2 ^ Z.of_nat k - 1)))
       (n + 2 * (2 ^ Z.of_nat k - 1)).
Proof.
  unfold subtree. simpl postorder_tree.
  pose proof (postorder_tree_next k n) as H1.
  destruct (postorder_tree k n) as [l n1]. simpl in H1. subst n1.
  pose proof (postorder_tree_next k (n + (2 ^ Z.of_nat k - 1))) as H2.
  destruct (postorder_tree k _) as [r n2]. simpl in H2. subst n2.
  cbn [fst]. f_equal. lia.
Qed.

Lemma pow2_pos k : 1 <= 2 ^ Z.of_nat k.
Proof. assert (0 < 2 ^ Z.of_nat k) by (apply Z.pow_pos_nonneg; lia). lia. Qed.

Lemma pow2_S k : 2 ^ Z.of_nat (S k) = 2 * 2 ^ Z.of_nat k.
Proof. rewrite Nat2Z.inj_succ, Z.pow_succ_r by lia. reflexivity. Qed.

Lemma pow2_ge2 k : 2 <= 2 ^ Z.of_nat (S k).
Proof. rewrite pow2_S. pose proof (pow2_pos k). lia. Qed.

Lemma has_root_subtree k n x :
  has_root x (subtree k n) =
  match k with O => false | S _ => n + 2 ^ Z.of_nat k - 2 =? x end.
Proof.
  destruct k as [|k]; [reflexivity|].
  rewrite subtree_S. cbn [has_root]. rewrite pow2_S. f_equal. lia.
Qed.

Lemma root_label_subtree k n :
  root_label (subtree (S k) n) = Some (n + 2 ^ Z.of_nat (S k) - 2).
Proof. rewrite subtree_S. cbn [root_label]. rewrite pow2_S. f_equal. lia. Qed.

Lemma map_seq_shift (n : Z) m : forall a,
  map (fun i => n + Z.of_nat i) (seq a m)
  = map (fun i => n + Z.of_nat a + Z.of_nat i) (seq 0 m).
Proof.
  induction m as [|m IH]; intros a; cbn [seq map]; [reflexivity|].
  f_equal; [lia|].
  rewrite (IH (S a)), <- (seq_shift m 0), map_map.
  apply map_ext. intros i. lia.
Qed.

(** The traversal hands out consecutive labels: the post-order listing of
    the tree is [next, next + 1, ...]. *)
Lemma postorder_subtree k : forall n,
  postorder (subtree k n) =
  map (fun i => n + Z.of_nat i) (seq 0 (Z.to_nat (2 ^ Z.of_nat k - 1))).
Proof.
  induction k as [|k IH]; intros n.
  - reflexivity.
  - rewrite subtree_S. cbn [postorder]. rewrite !IH.
    pose proof (pow2_pos k) as Hp.
    set (m := Z.to_nat (2 ^ Z.of_nat k - 1)).
    assert (Hm : 2 ^ Z.of_nat k - 1 = Z.of_nat m) by (unfold m; lia).
    replace (Z.to_nat (2 ^ Z.of_nat (S k) - 1)) with (m + (m + 1))%nat
      by (rewrite pow2_S; lia).
    rewrite !seq_app, !map_app. f_equal. cbn [plus seq map].
    f_equal.
    + rewrite (map_seq_shift n m m), Hm. reflexivity.
    + cbn [seq map]. f_equal. lia.
Qed.

Lemma postorder_flux_tree h :
  0 <= h ->
  postorder (flux_tree h) = map (fun i => 1 + Z.of_nat i) (seq 0 (Z.to_nat (2 ^ h - 1))).
Proof.
  intros Hh. unfold flux_tree. fold (subtree (Z.to_nat h) 1).
  rewrite postorder_subtree, Z2Nat.id by exact Hh. reflexivity.
Qed.

(** *** Parents and children in the post-order tree *)

Local Opaque Z.mul Z.pow Z.of_nat.

Lemma parent_of_range k : forall n x p,
  parent_of (subtree k n) x = Some p ->
  n <= x < p /\ p < n + (2 ^ Z.of_nat k - 1).
Proof.
  induction k as [|k IH]; intros n x p.
  - discriminate.
  - rewrite subtree_S. cbn [parent_of]. rewrite !has_root_subtree.
    pose proof (pow2_pos k) as Hp. rewrite pow2_S.
    destruct k as [|k].
    + cbn [orb parent_of subtree postorder_tree fst]. discriminate.
    + pose proof (pow2_ge2 k) as Hq.
      destruct (_ =? x) eqn:E1; cbn [orb].
      { apply Z.eqb_eq in E1. intros [= <-]. lia. }
      apply Z.eqb_neq in E1.
      destruct (_ =? x) eqn:E2.
      { apply Z.eqb_eq in E2. intros [= <-]. lia. }
      destruct (parent_of (subtree (S k) n) x) as [a|] eqn:PL.
      * intros [= <-]. apply IH in PL. lia.
      * intros PR. apply IH in PR. lia.
Qed.

Lemma parent_of_none k n x :
  ~ (n <= x < n + (2 ^ Z.of_nat k - 1) - 1) -> parent_of (subtree k n) x = None.
Proof.
  intros H. destruct (parent_of (subtree k n) x) as [p|] eqn:P; [|reflexivity].
  apply parent_of_range in P. lia.
Qed.

Lemma parent_of_some k : forall n x,
  n <= x < n + (2 ^ Z.of_nat k - 1) - 1 ->
  exists p, parent_of (subtree k n) x = Some p.
Proof.
  induction k as [|k IH]; intros n x Hx.
  - simpl in Hx. lia.
  - rewrite subtree_S. cbn [parent_of]. rewrite !has_root_subtree.
    pose proof (pow2_pos k) as Hp. rewrite pow2_S in Hx.
    destruct k as [|k].
    + simpl in Hx. lia.
    + pose proof (pow2_ge2 k) as Hq.
      destruct (_ =? x) eqn:E1; cbn [orb]; [eauto|].
      apply Z.eqb_neq in E1.
      destruct (_ =? x) eqn:E2; [eauto|].
      apply Z.eqb_neq in E2.
      destruct (parent_of (subtree (S k) n) x) as [a|] eqn:PL; [eauto|].
      apply IH. 
      destruct (Z_lt_dec x (n + (2 ^ Z.of_nat (S k) - 1) - 1)) as [Hl|Hr].
      * destruct (IH n x) as [a Ha]; [lia | congruence].
      * lia.
Qed.

Lemma children_of_range k : forall n p a b,
  children_of (subtree k n) p = Some (a, b) ->
  n <= a /\ a < b /\ b < p /\ p < n + (2 ^ Z.of_nat k - 1).
Proof.
  induction k as [|k IH]; intros n p a b.
  - discriminate.
  - rewrite subtree_S. cbn [children_of].
    pose proof (pow2_pos k) as Hp. rewrite pow2_S.
    destruct (_ =? p) eqn:E.
    + apply Z.eqb_eq in E. destruct k as [|k]; [discriminate|].
      rewrite !root_label_subtree. pose proof (pow2_ge2 k).
      intros [= <- <-]. lia.
    + destruct (children_of (subtree k n) p) as [[a' b']|] eqn:CL.
      * intros [= <- <-]. apply IH in CL. lia.
      * intros CR. apply IH in CR. lia.
Qed.

Lemma children_of_none k n p :
  ~ (n <= p < n + (2 ^ Z.of_nat k - 1)) -> children_of (subtree k n) p = None.
Proof.
  intros H. destruct (children_of (subtree k n) p) as [[a b]|] eqn:C; [|reflexivity].
  apply children_of_range in C. lia.
Qed.

(** Both children of a node have that node as their parent. *)
Lemma children_parent k : forall n p a b,
  children_of (subtree k n) p = Some (a, b) ->
  parent_of (subtree k n) a = Some p /\ parent_of (subtree k n) b = Some p.
Proof.
  induction k as [|k IH]; intros n p a b.
  - discriminate.
  - rewrite subtree_S. cbn [children_of parent_of].
    pose proof (pow2_pos k) as Hp.
    destruct (_ =? p) eqn:E.
    + apply Z.eqb_eq in E. destruct k as [|k]; [discriminate|].
      rewrite !root_label_subtree. intros [= <- <-].
      rewrite !has_root_subtree, !Z.eqb_refl, E, orb_true_r. cbn [orb]. tauto.
    + apply Z.eqb_neq in E.
      destruct (children_of (subtree k n) p) as [[a' b']|] eqn:CL.
      * intros [= <- <-].
        pose proof (children_of_range _ _ _ _ _ CL) as R.
        destruct (IH _ _ _ _ CL) as [Pa Pb]. rewrite Pa, Pb.
        rewrite !has_root_subtree. destruct k as [|k]; [discriminate|].
        replace (_ =? a') with false by (symmetry; apply Z.eqb_neq; lia).
        replace (_ =? a') with false by (symmetry; apply Z.eqb_neq; lia).
        replace (_ =? b') with false by (symmetry; apply Z.eqb_neq; lia).
        replace (_ =? b') with false by (symmetry; apply Z.eqb_neq; lia).
        cbn [orb]. tauto.
      * intros CR.
        pose proof (children_of_range _ _ _ _ _ CR) as R.
        destruct (IH _ _ _ _ CR) as [Pa Pb]. rewrite Pa, Pb.
        rewrite !(parent_of_none k n) by lia.
        rewrite !has_root_subtree. destruct k as [|k]; [discriminate|].
        replace (_ =? a) with false by (symmetry; apply Z.eqb_neq; lia).
        replace (_ =? a) with false by (symmetry; apply Z.eqb_neq; lia).
        replace (_ =? b) with false by (symmetry; apply Z.eqb_neq; lia).
        replace (_ =? b) with false by (symmetry; apply Z.eqb_neq; lia).
        cbn [orb]. tauto.
Qed.

(** A node with a parent is one of the two children of that parent. *)
Lemma parent_children k : forall n x p,
  parent_of (subtree k n) x = Some p ->
  exists a b, children_of (subtree k n) p = Some (a, b) /\ (x = a \/ x = b).
Proof.
  induction k as [|k IH]; intros n x p.
  - discriminate.
  - rewrite subtree_S. cbn [children_of parent_of].
    pose proof (pow2_pos k) as Hp.
    rewrite !has_root_subtree.
    destruct k as [|k]; [discriminate|].
    rewrite !root_label_subtree. pose proof (pow2_ge2 k) as Hq.
    destruct (_ =? x) eqn:E1; cbn [orb].
    { apply Z.eqb_eq in E1. intros [= <-]. rewrite Z.eqb_refl. eauto. }
    apply Z.eqb_neq in E1.
    destruct (_ =? x) eqn:E2.
    { apply Z.eqb_eq in E2. intros [= <-]. rewrite Z.eqb_refl. eauto. }
    apply Z.eqb_neq in E2.
    destruct (parent_of (subtree (S k) n) x) as [q|] eqn:PL.
    + intros [= <-]. pose proof (parent_of_range _ _ _ _ PL) as R.
      destruct (IH _ _ _ PL) as (a & b & C & Hx).
      replace (_ =? q) with false by (symmetry; apply Z.eqb_neq; lia).
      rewrite C. eauto.
    + intros PR. pose proof (parent_of_range _ _ _ _ PR) as R.
      destruct (IH _ _ _ PR) as (a & b & C & Hx).
      replace (_ =? p) with false by (symmetry; apply Z.eqb_neq; lia).
      rewrite (children_of_none (S k) n) by lia. rewrite C. eauto.
Qed.

(** *** [step] against the tree *)

Lemma step_keep k : forall off x v, v <> -1 -> step k off x v = v.
Proof.
  induction k as [|k IH]; intros off x v Hv; cbn [step]; [reflexivity|].
  apply Z.eqb_neq in Hv. rewrite Hv, andb_false_r. rewrite Hv, andb_false_r.
  apply Z.eqb_neq in Hv. rewrite (IH off x v) by assumption.
  apply IH, Hv.
Qed.

Lemma step_parent k : forall off x,
  0 <= off -> x <> off ->
  step k off x (-1) =
  match parent_of (subtree k (off + 1)) x with Some p => p | None => -1 end.
Proof.
  induction k as [|k IH]; intros off x Hoff Hx.
  - reflexivity.
  - rewrite subtree_S. cbn [step parent_of]. rewrite !has_root_subtree.
    pose proof (pow2_pos k) as Hp.
    rewrite Z.eqb_refl, !andb_true_r.
    destruct k as [|k].
    + change (2 ^ Z.of_nat 0) with 1.
      replace (x =? off + (1 - 1)) with false by (symmetry; apply Z.eqb_neq; lia).
      replace (x =? off + (1 - 1) + (1 - 1)) with false
        by (symmetry; apply Z.eqb_neq; lia).
      reflexivity.
    + pose proof (pow2_ge2 k) as Hq.
      set (half := 2 ^ Z.of_nat (S k) - 1) in *.
      rewrite (Z.eqb_sym x (off + half)), (Z.eqb_sym x (off + half + half)).
      replace (off + 1 + 2 ^ Z.of_nat (S k) - 2) with (off + half) by (unfold half; lia).
      replace (off + 1 + half + 2 ^ Z.of_nat (S k) - 2) with (off + half + half)
        by (unfold half; lia).
      replace (off + 1 + 2 * half) with (off + half + half + 1) by lia.
      destruct (off + half =? x) eqn:E1.
      { cbn [orb].
        assert (E : (if (off + half + half =? x) && (off + half + half + 1 =? -1)
                     then off + half + half + 1 else off + half + half + 1)
                    = off + half + half + 1) by (destruct (_ && _); reflexivity).
        rewrite E. rewrite (step_keep (S k) off) by lia. apply step_keep. lia. }
      cbn [orb].
      destruct (off + half + half =? x) eqn:E2.
      { change (-1 =? -1) with true. cbn [andb].
        rewrite (step_keep (S k) off) by lia. apply step_keep. lia. }
      change (-1 =? -1) with true. cbn [andb].
      apply Z.eqb_neq in E1, E2.
      rewrite (IH off x) by assumption.
      destruct (parent_of (subtree (S k) (off + 1)) x) as [a|] eqn:PL.
      * apply parent_of_range in PL. apply step_keep. lia.
      * rewrite (IH (off + half) x) by lia.
        replace (off + half + 1) with (off + 1 + half) by lia. reflexivity.
Qed.

(** Whatever [dfs] writes for a label is larger than the label. *)
Lemma step_gt k : forall off x,
  0 <= off -> step k off x (-1) <> -1 -> x < step k off x (-1).
Proof.
  induction k as [|k IH]; intros off x Hoff.
  - cbn [step]. congruence.
  - cbn [step]. pose proof (pow2_pos k) as Hp.
    set (half := 2 ^ Z.of_nat k - 1).
    rewrite Z.eqb_refl, !andb_true_r.
    destruct (x =? off + half) eqn:E1.
    { apply Z.eqb_eq in E1. replace (_ && _) with false
        by (symmetry; apply andb_false_iff; right; apply Z.eqb_neq; lia).
      rewrite (step_keep k off) by lia. rewrite step_keep by lia. lia. }
    destruct (x =? off + half + half) eqn:E2.
    { apply Z.eqb_eq in E2. change (-1 =? -1) with true. cbn [andb].
      rewrite (step_keep k off) by lia. rewrite step_keep by lia. lia. }
    change (-1 =? -1) with true. cbn [andb].
    destruct (Z.eq_dec (step k off x (-1)) (-1)) as [Em|Em].
    + rewrite Em. apply IH. lia.
    + rewrite step_keep by exact Em. intros _. apply IH; assumption.
Qed.

Local Transparent Z.mul Z.pow Z.of_nat.

(** *** One label at a time *)

Lemma solution_single h x : solution h [x] = [step (Z.to_nat h) 0 x (-1)].
Proof. rewrite solution_step. reflexivity. Qed.


Lemma Forall2_map_r {A B : Type} (P : A -> B -> Prop) (f : A -> B) (l : list A) :
  (forall x, In x l -> P x (f x)) -> Forall2 P l (map f l).
Proof.
  induction l as [|a l IH]; intros H; cbn [map]; constructor.
  - apply H. left. reflexivity.
  - apply IH. intros x Hx. apply H. right. exact Hx.
Qed.

(** For a valid height the answer for a label other than 0 is read off the
    post-order tree. *)
Lemma answer_parent h x :
  0 <= h -> x <> 0 ->
  step (Z.to_nat h) 0 x (-1) =
  match parent_of (flux_tree h) x with Some p => p | None => -1 end.
Proof.
  intros Hh Hx. unfold flux_tree. fold (subtree (Z.to_nat h) 1).
  apply (step_parent (Z.to_nat h) 0 x); [lia | exact Hx].
Qed.

Lemma flux_parent_range h x p :
  0 <= h -> parent_of (flux_tree h) x = Some p -> 1 <= x < p /\ p <= 2 ^ h - 1.
Proof.
  intros Hh H. unfold flux_tree in H. fold (subtree (Z.to_nat h) 1) in H.
  apply parent_of_range in H. rewrite Z2Nat.id in H by exact Hh. lia.
Qed.

Lemma flux_parent_some h x :
  0 <= h -> 1 <= x < 2 ^ h - 1 -> exists p, parent_of (flux_tree h) x = Some p.
Proof.
  intros Hh Hx. unfold flux_tree. fold (subtree (Z.to_nat h) 1).
  apply parent_of_some. rewrite Z2Nat.id by exact Hh. lia.
Qed.

(** *** The claims about [ancestor_labels] *)

(** C7, as stated, fails at label 0: it lies outside [1, 2^h - 1], yet the
    leftmost leaf is visited with [leftNode = rightNode = 0] and
    [parentNode = 1], so the answer is 1 and not the sentinel. *)
Lemma label_zero_not_sentinel :
  solution 3 [0] = [1] /\ ~ (1 <= 0 <= 2 ^ 3 - 1) /\ 1 <> -1.
Proof.
  split; [reflexivity|]. split; [|discriminate].
  intros [H _]. apply H. reflexivity.
Qed.

(** C7 (amended): for every height [h >= 1] and every queried label other
    than 0, the answer is the post-order label of the parent when the label
    lies in [1, 2^h - 1] and is not the root, and it is the sentinel -1
    exactly when the label is the root [2^h - 1] or lies outside
    [1, 2^h - 1].  The answers are listed per distinct label, in order of
    first occurrence. *)
Theorem ancestor_labels_parent h q :
  1 <= h ->
  Forall2 (fun x r =>
             x <> 0 ->
             (1 <= x < 2 ^ h - 1 -> parent_of (flux_tree h) x = Some r) /\
             (r = -1 <-> x = 2 ^ h - 1 \/ x < 1 \/ 2 ^ h - 1 < x))
          (first_occurrences q) (solution h q).
Proof.
  intros Hh. rewrite solution_step. apply Forall2_map_r.
  intros x _ Hx. rewrite answer_parent by lia.
  destruct (parent_of (flux_tree h) x) as [p|] eqn:P.
  - apply flux_parent_range in P; [|lia]. split; [reflexivity|].
    split; [lia|]. intros [H|[H|H]]; lia.
  - split.
    + intros Hr. destruct (flux_parent_some h x) as [p Hp]; [lia | exact Hr | congruence].
    + split; [|reflexivity]. intros _.
      destruct (Z_lt_dec x 1); [tauto|]. destruct (Z_lt_dec (2 ^ h - 1) x); [tauto|].
      left. destruct (Z.eq_dec x (2 ^ h - 1)) as [E|E]; [exact E|].
      destruct (flux_parent_some h x) as [p Hp]; [lia | lia | congruence].
Qed.

Lemma ancestor_labels_parent_witness :
  1 <= 3 /\
  Forall2 (fun x r =>
             x <> 0 ->
             (1 <= x < 2 ^ 3 - 1 -> parent_of (flux_tree 3) x = Some r) /\
             (r = -1 <-> x = 2 ^ 3 - 1 \/ x < 1 \/ 2 ^ 3 - 1 < x))
          (first_occurrences [1; 4; 7]) (solution 3 [1; 4; 7]).
Proof. split; [lia | apply (ancestor_labels_parent 3 [1; 4; 7]); lia]. Defined.

(** C8: sibling symmetry.  For a valid height and a non-root label [x] of
    the tree, the parent [p] computed for [x] has two distinct children in
    the post-order tree, [x] is one of them, and querying either child
    (so also the other one) gives the same parent [p]. *)
Theorem sibling_symmetry h x p :
  1 <= h -> 1 <= x < 2 ^ h - 1 -> solution h [x] = [p] ->
  exists a b,
    children_of (flux_tree h) p = Some (a, b) /\ (x = a \/ x = b) /\ a <> b /\
    solution h [a] = [p] /\ solution h [b] = [p].
Proof.
  intros Hh Hx Hs. rewrite solution_single, answer_parent in Hs by lia.
  destruct (flux_parent_some h x) as [p' P]; [lia | exact Hx |].
  rewrite P in Hs. injection Hs as ->.
  unfold flux_tree in *. fold (subtree (Z.to_nat h) 1) in *.
  destruct (parent_children _ _ _ _ P) as (a & b & C & Hab).
  pose proof (children_of_range _ _ _ _ _ C) as R.
  destruct (children_parent _ _ _ _ _ C) as [Pa Pb].
  exists a, b. repeat split; try assumption; try lia.
  - rewrite solution_single, answer_parent by lia.
    unfold flux_tree. fold (subtree (Z.to_nat h) 1). rewrite Pa. reflexivity.
  - rewrite solution_single, answer_parent by lia.
    unfold flux_tree. fold (subtree (Z.to_nat h) 1). rewrite Pb. reflexivity.
Qed.

Lemma sibling_symmetry_witness :
  exists a b,
    children_of (flux_tree 3) 6 = Some (a, b) /\ (4 = a \/ 4 = b) /\ a <> b /\
    solution 3 [a] = [6] /\ solution 3 [b] = [6].
Proof. apply (sibling_symmetry 3 4 6); [lia | simpl; lia | reflexivity]. Defined.



(** C10: for a valid height, every answer that is not the sentinel -1 is
    strictly greater than the label it answers: in post-order a parent is
    numbered after its children. *)
Theorem parent_label_greater h q :
  1 <= h ->
  Forall2 (fun x r => r <> -1 -> x < r) (first_occurrences q) (solution h q).
Proof.
  intros _. rewrite solution_step. apply Forall2_map_r.
  intros x _. apply step_gt. lia.
Qed.

Lemma parent_label_greater_witness :
  Forall2 (fun x r => r <> -1 -> x < r)
          (first_occurrences [19; 14; 28]) (solution 5 [19; 14; 28]).
Proof. apply (parent_label_greater 5 [19; 14; 28]). lia. Defined.

End IonFluxFacts.

(** ** Properties of Doomsday Fuel *)

Module DoomsdayFacts.
Import Doomsday.

(** *** The early return *)

Lemma solution_short m : (length m <= 1)%nat -> solution m = Ok [1; 1].
Proof.
  intros H. unfold solution.
  destruct (length m <=? 1)%nat eqn:E; [reflexivity|].
  apply Nat.leb_gt in E. lia.
Qed.

Lemma solution_start_terminal row0 m :
  sum row0 = 0 -> solution (row0 :: m) = Ok [1; 1].
Proof.
  intros H. unfold solution.
  destruct (length (row0 :: m) <=? 1)%nat; [reflexivity|].
  cbn [index nth_error bind]. rewrite H. reflexivity.
Qed.

(** *** The iteration bounds are never reached

    [limit_loop] and [gcd_loop] replace their second argument by a
    remainder at each turn; two turns at least halve it, so [loop_bound]
    turns are enough and [OutOfFuel] is never the outcome. *)

Lemma remainder_halves d r : 0 < r < d -> 2 * (d mod r) < d.
Proof.
  intros H. pose proof (Z.mod_pos_bound d r ltac:(lia)) as B.
  pose proof (Z.div_mod d r ltac:(lia)) as E.
  assert (1 <= d / r) by (apply Z.div_le_lower_bound; lia).
  nia.
Qed.

Lemma gcd_loop_fuel k : forall fuel a b,
  0 <= b < 2 ^ Z.of_nat k -> (2 * k + 1 <= fuel)%nat ->
  exists g, gcd_loop fuel a b = Ok g.
Proof.
  induction k as [|k IH]; intros fuel a b Hb Hf.
  - destruct fuel as [|fuel]; [lia|]. cbn [gcd_loop].
    change (2 ^ Z.of_nat 0) with 1 in Hb.
    replace b with 0 by lia. cbn. eauto.
  - destruct fuel as [|[|fuel]]; try lia. cbn [gcd_loop].
    destruct (b =? 0) eqn:E0; [eauto|]. apply Z.eqb_neq in E0.
    pose proof (Z.mod_pos_bound a b ltac:(lia)) as Hr.
    destruct (a mod b =? 0) eqn:E1; [eauto|]. apply Z.eqb_neq in E1.
    apply IH; [|lia].
    pose proof (remainder_halves b (a mod b) ltac:(lia)) as Hh.
    pose proof (Z.mod_pos_bound b (a mod b) ltac:(lia)).
    rewrite Nat2Z.inj_succ, Z.pow_succ_r in Hb by lia. lia.
Qed.

Lemma loop_bound_enough d :
  0 <= d ->
  exists k, d < 2 ^ Z.of_nat k /\ (2 * k + 1 <= loop_bound d)%nat.
Proof.
  intros Hd. unfold loop_bound. rewrite Z.abs_eq by exact Hd.
  exists (S (Z.to_nat (Z.log2 d))). split; [|lia].
  rewrite Nat2Z.inj_succ, Z2Nat.id by apply Z.log2_nonneg.
  destruct (Z.eq_dec d 0) as [->|Hne]; [reflexivity|].
  apply Z.log2_spec. lia.
Qed.

Lemma gcd_loop_total a b :
  0 <= b -> exists g, gcd_loop (loop_bound b) a b = Ok g.
Proof.
  intros Hb. destruct (loop_bound_enough b Hb) as (k & Hk & Hf).
  apply (gcd_loop_fuel k); [lia | exact Hf].
Qed.

Lemma limit_loop_fuel k : forall fuel mx p0 q0 p1 q1 n d,
  0 <= d < 2 ^ Z.of_nat k -> (2 * k + 1 <= fuel)%nat ->
  limit_loop fuel mx p0 q0 p1 q1 n d <> Raise OutOfFuel.
Proof.
  induction k as [|k IH]; intros fuel mx p0 q0 p1 q1 n d Hd Hf.
  - destruct fuel as [|fuel]; [lia|]. cbn [limit_loop].
    change (2 ^ Z.of_nat 0) with 1 in Hd.
    replace d with 0 by lia. cbn. discriminate.
  - destruct fuel as [|[|fuel]]; try lia. cbn [limit_loop]. unfold floor_div.
    destruct (d =? 0) eqn:E0; [cbn; discriminate|]. apply Z.eqb_neq in E0.
    cbn [bind]. destruct (mx <? _); [discriminate|].
    replace (n - n / d * d) with (n mod d) by (rewrite Z.mod_eq by exact E0; ring).
    pose proof (Z.mod_pos_bound n d ltac:(lia)) as Hr.
    destruct (n mod d =? 0) eqn:E1; [cbn; discriminate|]. apply Z.eqb_neq in E1.
    cbn [bind]. destruct (mx <? _); [discriminate|].
    replace (d - d / (n mod d) * (n mod d)) with (d mod (n mod d))
      by (rewrite (Z.mod_eq d) by exact E1; ring).
    apply IH; [|lia].
    pose proof (remainder_halves d (n mod d) ltac:(lia)) as Hh.
    pose proof (Z.mod_pos_bound d (n mod d) ltac:(lia)).
    rewrite Nat2Z.inj_succ, Z.pow_succ_r in Hd by lia. lia.
Qed.

Lemma limit_loop_total mx p0 q0 p1 q1 n d :
  0 <= d -> limit_loop (loop_bound d) mx p0 q0 p1 q1 n d <> Raise OutOfFuel.
Proof.
  intros Hd. destruct (loop_bound_enough d Hd) as (k & Hk & Hf).
  apply (limit_loop_fuel k); [lia | exact Hf].
Qed.

Lemma python_outcome_bind {A B : Type} (c : result A) (k : A -> result B) :
  python_outcome c -> (forall a, c = Ok a -> python_outcome (k a)) ->
  python_outcome (bind c k).
Proof.
  unfold python_outcome. intros Hc Hk. destruct c as [a|e]; cbn [bind].
  - apply Hk. reflexivity.
  - intros [= ->]. apply Hc. reflexivity.
Qed.

Lemma python_outcome_mapM {A B : Type} (f : A -> result B) (l : list A) :
  (forall a, In a l -> python_outcome (f a)) -> python_outcome (mapM f l).
Proof.
  induction l as [|a l IH]; intros H; cbn [mapM]; [discriminate|].
  apply python_outcome_bind; [apply H; left; reflexivity|]. intros b _.
  apply python_outcome_bind; [apply IH; intros; apply H; right; assumption|].
  intros bs _. discriminate.
Qed.

Lemma mapM_Forall {A B : Type} (P : B -> Prop) (f : A -> result B) (l : list A) :
  (forall a b, f a = Ok b -> P b) ->
  forall bs, mapM f l = Ok bs -> Forall P bs.
Proof.
  intros Hf. induction l as [|a l IH]; cbn [mapM]; intros bs H.
  - injection H as <-. constructor.
  - destruct (f a) as [b|e] eqn:Fa; cbn [bind] in H; [|discriminate].
    destruct (mapM f l) as [bs'|e] eqn:M; cbn [bind] in H; [|discriminate].
    injection H as <-. constructor; [eapply Hf, Fa | apply IH; reflexivity].
Qed.

Lemma index_outcome {A : Type} (l : list A) i : python_outcome (index l i).
Proof. unfold index. destruct (nth_error l i); discriminate. Qed.

Lemma float_of_int_outcome z : python_outcome (float_of_int z).
Proof. unfold float_of_int. destruct (binary_normalize _ _ _ _ _); discriminate. Qed.

Lemma int_div_float_outcome z y : python_outcome (int_div_float z y).
Proof.
  unfold int_div_float. apply python_outcome_bind; [apply float_of_int_outcome|].
  intros x _. destruct (is_zero y); discriminate.
Qed.

Lemma true_div_outcome a b : python_outcome (true_div a b).
Proof.
  unfold true_div.
  destruct a, b; try discriminate; destruct (fdiv _ _); discriminate.
Qed.

Lemma int_of_float_outcome x : python_outcome (int_of_float x).
Proof. destruct x; discriminate. Qed.

Lemma floor_div_outcome a b : python_outcome (floor_div a b).
Proof. unfold floor_div. destruct (b =? 0); discriminate. Qed.

Lemma fraction_outcome n d : python_outcome (fraction n d).
Proof. unfold fraction. destruct (d =? 0); discriminate. Qed.

(** Fractions are kept with a positive denominator. *)
Lemma fraction_pos n d f : fraction n d = Ok f -> 0 < denominator f.
Proof.
  unfold fraction. destruct (d =? 0) eqn:E; [discriminate|].
  apply Z.eqb_neq in E. intros [= <-]. cbn [denominator].
  pose proof (Z.gcd_nonneg n d) as Hg.
  assert (Hg0 : Z.gcd n d <> 0) by (intros H; apply Z.gcd_eq_0_r in H; contradiction).
  destruct (Z.gcd_divide_r n d) as [c Hc].
  destruct (d <? 0) eqn:S.
  - apply Z.ltb_lt in S.
    replace d with (- c * - Z.gcd n d) at 1 by lia.
    rewrite Z.div_mul by lia. nia.
  - apply Z.ltb_ge in S. rewrite Hc at 1. rewrite Z.div_mul by lia. nia.
Qed.

Lemma fraction_of_float_pos x f : fraction_of_float x = Ok f -> 0 < denominator f.
Proof.
  destruct x as [s|s| |s m e]; cbn [fraction_of_float]; try discriminate.
  - intros [= <-]. reflexivity.
  - destruct (0 <=? e); [intros [= <-]; reflexivity | apply fraction_pos].
Qed.

Lemma fraction_of_float_outcome x : python_outcome (fraction_of_float x).
Proof.
  destruct x as [s|s| |s m e]; cbn [fraction_of_float]; try discriminate.
  destruct (0 <=? e); [discriminate | apply fraction_outcome].
Qed.

Lemma limit_denominator_pos self mx f :
  0 < denominator self -> limit_denominator self mx = Ok f -> 0 < denominator f.
Proof.
  intros Hs. unfold limit_denominator.
  destruct (mx <? 1); [discriminate|].
  destruct (denominator self <=? mx); [intros [= <-]; exact Hs|].
  destruct (limit_loop _ _ _ _ _ _ _ _) as [[[[[[p0 q0] p1] q1] n] d]|e];
    cbn [bind]; [|discriminate].
  destruct (floor_div _ _) as [k|e]; cbn [bind]; [|discriminate].
  destruct (fraction (p0 + k * p1) _) as [b1|e] eqn:B1; cbn [bind]; [|discriminate].
  destruct (fraction p1 q1) as [b2|e] eqn:B2; cbn [bind]; [|discriminate].
  apply fraction_pos in B1, B2.
  destruct (closer_or_equal _ _ _); intros [= <-]; assumption.
Qed.

Lemma limit_denominator_outcome self mx :
  0 < denominator self -> python_outcome (limit_denominator self mx).
Proof.
  intros Hs. unfold limit_denominator.
  destruct (mx <? 1); [discriminate|].
  destruct (denominator self <=? mx); [discriminate|].
  apply python_outcome_bind; [apply limit_loop_total; lia|].
  intros [[[[[p0 q0] p1] q1] n] d] _.
  apply python_outcome_bind; [apply floor_div_outcome|]. intros k _.
  apply python_outcome_bind; [apply fraction_outcome|]. intros b1 _.
  apply python_outcome_bind; [apply fraction_outcome|]. intros b2 _.
  destruct (closer_or_equal _ _ _); discriminate.
Qed.

Lemma lcd_loop_outcome ds : forall lcd,
  Forall (fun d => 0 < d) ds -> python_outcome (lcd_loop ds lcd).
Proof.
  induction ds as [|d ds IH]; intros lcd H; cbn [lcd_loop]; [discriminate|].
  inversion H as [|? ? Hd Hds]; subst.
  destruct (gcd_loop_total lcd d ltac:(lia)) as [g Hg]. rewrite Hg. cbn [bind].
  apply python_outcome_bind; [apply floor_div_outcome|].
  intros q _. apply IH, Hds.
Qed.

Lemma probabilities_outcome row : python_outcome (probabilities row).
Proof.
  unfold probabilities.
  apply python_outcome_bind.
  { apply python_outcome_mapM. intros x _.
    apply python_outcome_bind; [apply fraction_of_float_outcome|].
    intros f Hf. apply limit_denominator_outcome.
    eapply fraction_of_float_pos, Hf. }
  intros fractions Hfr.
  assert (Hpos : Forall (fun f => 0 < denominator f) fractions).
  { revert Hfr. apply mapM_Forall. intros x f.
    destruct (fraction_of_float x) as [f0|e] eqn:F0; cbn [bind]; [|discriminate].
    apply limit_denominator_pos. eapply fraction_of_float_pos, F0. }
  apply python_outcome_bind.
  { apply lcd_loop_outcome. apply Forall_map. exact Hpos. }
  intros lcd _.
  apply python_outcome_bind; [|intros; discriminate].
  apply python_outcome_mapM. intros [p denom] _.
  apply python_outcome_bind; [apply true_div_outcome|]. intros x _.
  apply python_outcome_bind; [apply int_of_float_outcome|]. intros k _.
  discriminate.
Qed.

Lemma split_row_outcome mrow total absorbing cols : forall temp_r temp_q,
  python_outcome (split_row mrow total absorbing cols temp_r temp_q).
Proof.
  induction cols as [|col cols IH]; intros temp_r temp_q; cbn [split_row];
    [discriminate|].
  apply python_outcome_bind; [apply index_outcome|]. intros x _.
  apply python_outcome_bind; [apply int_div_float_outcome|]. intros v _.
  destruct (mem col absorbing); apply IH.
Qed.

Lemma split_rows_outcome m absorbing n rows : forall r q,
  python_outcome (split_rows m absorbing n rows r q).
Proof.
  induction rows as [|row rows IH]; intros r q; cbn [split_rows]; [discriminate|].
  destruct (mem row absorbing); [apply IH|].
  apply python_outcome_bind; [apply index_outcome|]. intros mrow _.
  apply python_outcome_bind; [apply float_of_int_outcome|]. intros total _.
  apply python_outcome_bind; [apply split_row_outcome|]. intros [temp_r temp_q] _.
  apply IH.
Qed.

Lemma eliminate_outcome n : forall top bottom, python_outcome (eliminate n top bottom).
Proof.
  induction n as [|n IH]; intros top bottom; cbn [eliminate]; [discriminate|].
  destruct (swap_rows _ _) as [|[pivot piv] rest]; [discriminate|].
  destruct (is_zero pivot); [discriminate | apply IH].
Qed.

Lemma subtract_outcome a b : python_outcome (subtract a b).
Proof.
  unfold subtract. destruct (columns a); [|discriminate].
  destruct (columns b); [|discriminate].
  destruct (broadcast (length a) (length b)); [|discriminate].
  destruct (broadcast _ _); discriminate.
Qed.

Lemma find_f_submatrix_outcome q : python_outcome (find_f_submatrix q).
Proof.
  unfold find_f_submatrix.
  apply python_outcome_bind; [apply subtract_outcome|]. intros d _.
  unfold inv. destruct (forallb _ d); [|discriminate].
  apply python_outcome_bind; [apply eliminate_outcome|]. intros us _. discriminate.
Qed.

(** The model never stops for lack of fuel: every outcome of [solution] is
    a value or a Python exception. *)
Lemma solution_outcome m : python_outcome (solution m).
Proof.
  unfold solution. destruct (length m <=? 1)%nat; [discriminate|].
  apply python_outcome_bind; [apply index_outcome|]. intros row0 _.
  destruct (sum row0 =? 0); [discriminate|].
  apply python_outcome_bind; [apply split_rows_outcome|]. intros [r q] _.
  apply python_outcome_bind; [apply find_f_submatrix_outcome|].
  intros f _.
  apply python_outcome_bind; [apply index_outcome|]. intros fr0 _.
  apply probabilities_outcome.
Qed.

(** *** The shape of the answer

    Whenever [solution] gets past the early return and yields a value, that
    value has one entry per terminal state and one more, the common
    denominator. *)

Lemma mapM_length {A B : Type} (f : A -> result B) (l : list A) :
  forall bs, mapM f l = Ok bs -> length bs = length l.
Proof.
  induction l as [|a l IH]; cbn [mapM]; intros bs H.
  - injection H as <-. reflexivity.
  - destruct (f a) as [b|e]; cbn [bind] in H; [|discriminate].
    destruct (mapM f l) as [bs'|e]; cbn [bind] in H; [|discriminate].
    injection H as <-. cbn [length]. rewrite (IH bs') by reflexivity. reflexivity.
Qed.

Lemma probabilities_length row out :
  probabilities row = Ok out -> length out = S (length row).
Proof.
  unfold probabilities.
  destruct (mapM _ row) as [fractions|e] eqn:M; cbn [bind]; [|discriminate].
  destruct (lcd_loop _ _) as [lcd|e]; cbn [bind]; [|discriminate].
  destruct (mapM _ (combine _ _)) as [scaled|e] eqn:M2; cbn [bind]; [|discriminate].
  intros [= <-]. apply mapM_length in M, M2.
  rewrite length_app, M2, length_combine, !length_map, M. cbn [length]. lia.
Qed.

Lemma map2_length {A B C : Type} (f : A -> B -> C) (l : list A) : forall l',
  length l = length l' -> length (map2 f l l') = length l.
Proof.
  induction l as [|a l IH]; intros [|b l'] H; cbn [map2 length] in *;
    try reflexivity; try discriminate.
  rewrite IH by lia. reflexivity.
Qed.

Lemma dot_row_length (b : matrix) (t : nat) :
  Forall (fun brow => length brow = t) b ->
  forall (pairs : list (float * list float)) (acc : list float),
    Forall (fun p => In (snd p) b) pairs -> length acc = t ->
    length (fold_left (fun acc '(x, brow) => map2 (fun c y => fadd c (fmul x y)) acc brow)
                      pairs acc) = t.
Proof.
  intros Hb pairs. induction pairs as [|[x brow] pairs IH]; intros acc Hin Hacc;
    cbn [fold_left]; [exact Hacc|].
  inversion Hin as [|? ? Hx Hrest]; subst. apply IH; [exact Hrest|].
  rewrite Forall_forall in Hb. specialize (Hb brow Hx).
  rewrite map2_length; lia.
Qed.

Lemma dot_length (a b : matrix) (t : nat) :
  b <> [] -> Forall (fun brow => length brow = t) b ->
  Forall (fun row => length row = t) (dot a b).
Proof.
  intros Hne Hb. unfold dot. apply Forall_map, Forall_forall. intros arow _.
  apply (dot_row_length b t Hb).
  - apply Forall_forall. intros [x brow] Hp. apply in_combine_r in Hp. exact Hp.
  - rewrite repeat_length. destruct b as [|r b']; [contradiction|].
    inversion Hb; subst. reflexivity.
Qed.

Lemma mem_find_absorbing m : forall start c,
  mem c (find_absorbing m start) = true <->
  (start <= c)%nat /\ is_terminal m (c - start) = true.
Proof.
  unfold mem, is_terminal.
  induction m as [|row m IH]; intros start c; cbn [find_absorbing].
  - cbn [existsb]. destruct (c - start)%nat; cbn [nth_error];
      (split; [discriminate | intros [_ H]; discriminate]).
  - assert (Hrec : existsb (Nat.eqb c) (find_absorbing m (S start)) = true <->
                   (S start <= c)%nat /\
                   match nth_error (row :: m) (c - start) with
                   | Some r => sum r =? 0 | None => false end = true).
    { rewrite IH. split; intros [H1 H2]; (split; [exact H1|]).
      - replace (c - start)%nat with (S (c - S start)) by lia. exact H2.
      - replace (c - start)%nat with (S (c - S start)) in H2 by lia. exact H2. }
    destruct (sum row =? 0) eqn:E; cbn [existsb].
    + rewrite orb_true_iff, Hrec, Nat.eqb_eq. split.
      * intros [->|[H1 H2]]; [|split; [lia | exact H2]].
        rewrite Nat.sub_diag. cbn [nth_error]. split; [lia | exact E].
      * intros [H1 H2]. destruct (Nat.eq_dec c start) as [->|Hne]; [left; reflexivity|].
        right. split; [lia | exact H2].
    + rewrite Hrec. split.
      * intros [H1 H2]. split; [lia | exact H2].
      * intros [H1 H2]. split; [|exact H2].
        destruct (Nat.eq_dec c start) as [->|Hne]; [|lia].
        rewrite Nat.sub_diag in H2. cbn [nth_error] in H2. congruence.
Qed.

Lemma terminal_columns m :
  length (filter (fun c => mem c (find_absorbing m 0)) (seq 0 (length m)))
  = terminal_count m.
Proof.
  unfold terminal_count. f_equal. apply filter_ext. intros c.
  destruct (is_terminal m c) eqn:T.
  - apply mem_find_absorbing. rewrite Nat.sub_0_r. split; [lia | exact T].
  - destruct (mem c (find_absorbing m 0)) eqn:M; [|reflexivity].
    apply mem_find_absorbing in M. rewrite Nat.sub_0_r in M. destruct M. congruence.
Qed.

Lemma split_row_length mrow total absorbing cols : forall temp_r temp_q r q,
  split_row mrow total absorbing cols temp_r temp_q = Ok (r, q) ->
  length r = (length temp_r + length (filter (fun c => mem c absorbing) cols))%nat.
Proof.
  induction cols as [|col cols IH]; intros temp_r temp_q r q; cbn [split_row filter].
  - intros [= <- <-]. cbn. lia.
  - destruct (index mrow col) as [x|e]; cbn [bind]; [|discriminate].
    destruct (int_div_float x total) as [v|e]; cbn [bind]; [|discriminate].
    destruct (mem col absorbing); intros H; apply IH in H; rewrite H;
      [rewrite length_app; cbn [length]; lia | reflexivity].
Qed.

Lemma split_rows_length m absorbing n t rows : forall r0 q0 r q,
  length (filter (fun c => mem c absorbing) (seq 0 n)) = t ->
  Forall (fun row => length row = t) r0 ->
  split_rows m absorbing n rows r0 q0 = Ok (r, q) ->
  Forall (fun row => length row = t) r /\
  length r = (length r0 + length (filter (fun x => negb (mem x absorbing)) rows))%nat.
Proof.
  induction rows as [|row rows IH]; intros r0 q0 r q Ht Hr0; cbn [split_rows filter].
  - intros [= <- <-]. split; [exact Hr0 | cbn; lia].
  - destruct (mem row absorbing); cbn [negb]; [apply IH; assumption|].
    destruct (index m row) as [mrow|e]; cbn [bind]; [|discriminate].
    destruct (float_of_int (sum mrow)) as [total|e]; cbn [bind]; [|discriminate].
    destruct (split_row _ _ _ _ _ _) as [[temp_r temp_q]|e] eqn:S; cbn [bind];
      [|discriminate].
    intros H. apply split_row_length in S. cbn [length] in S.
    apply IH in H; [| exact Ht | apply Forall_app; split; [exact Hr0|]; repeat constructor; lia].
    rewrite !length_app in H. cbn [length] in H.
    destruct H as (H1 & H2). split; [exact H1 | cbn [length]; lia].
Qed.

Lemma solution_row m out :
  (2 <= length m)%nat -> option_map sum (nth_error m 0) <> Some 0 ->
  solution m = Ok out ->
  exists fr0, length fr0 = terminal_count m /\ probabilities fr0 = Ok out.
Proof.
  intros Hn H0. unfold solution.
  destruct (length m <=? 1)%nat eqn:E; [apply Nat.leb_le in E; lia|].
  destruct m as [|row0 m']; [cbn in Hn; lia|].
  cbn [index nth_error bind option_map] in *.
  destruct (sum row0 =? 0) eqn:S0; [apply Z.eqb_eq in S0; congruence|].
  destruct (split_matrix (row0 :: m')) as [[r q]|e] eqn:SM; cbn [bind]; [|discriminate].
  destruct (find_f_submatrix q) as [f|e]; cbn [bind]; [|discriminate].
  unfold index.
  destruct (nth_error (dot f r) 0) as [fr0|] eqn:F0; cbn [bind]; [|discriminate].
  intros P. exists fr0. split; [|exact P].
  unfold split_matrix in SM.
  apply (split_rows_length _ _ _ (terminal_count (row0 :: m'))) in SM;
    [| apply terminal_columns | constructor].
  destruct SM as (Hr & Hlen).
  assert (Hne : r <> []).
  { intros ->. cbn [length seq filter] in Hlen.
    assert (M : mem 0 (find_absorbing (row0 :: m') 0) = false).
    { destruct (mem 0 _) eqn:M; [|reflexivity].
      apply mem_find_absorbing in M. destruct M as [_ M].
      unfold is_terminal in M. cbn [Nat.sub nth_error] in M. congruence. }
    rewrite M in Hlen. cbn [negb length] in Hlen. lia. }
  pose proof (dot_length f r _ Hne Hr) as D.
  rewrite Forall_forall in D. apply D. eapply nth_error_In, F0.
Qed.

Lemma solution_shape m out :
  (2 <= length m)%nat -> option_map sum (nth_error m 0) <> Some 0 ->
  solution m = Ok out ->
  length out = S (terminal_count m) /\ exists numerators lcd, out = numerators ++ [lcd].
Proof.
  intros Hn H0 H. destruct (solution_row m out Hn H0 H) as (fr0 & Hfr & P).
  pose proof (probabilities_length _ _ P) as L.
  split; [lia|].
  unfold probabilities in P.
  destruct (mapM _ fr0) as [fractions|e]; cbn [bind] in P; [|discriminate].
  destruct (lcd_loop _ _) as [lcd|e]; cbn [bind] in P; [|discriminate].
  destruct (mapM _ (combine _ _)) as [scaled|e]; cbn [bind] in P; [|discriminate].
  injection P as <-. eauto.
Qed.

(** With no terminal state there is no numerator: the answer is the lone
    denominator 1. *)
Lemma solution_no_terminal m out :
  (2 <= length m)%nat -> option_map sum (nth_error m 0) <> Some 0 ->
  terminal_count m = 0%nat -> solution m = Ok out -> out = [1].
Proof.
  intros Hn H0 Ht H. destruct (solution_row m out Hn H0 H) as (fr0 & Hfr & P).
  rewrite Ht in Hfr. apply length_zero_iff_nil in Hfr. subst fr0.
  cbn in P. congruence.
Qed.

(** *** The claims about [absorption_fractions] *)

(** C2: the two documented examples. *)
Theorem documented_examples :
  solution t2 = Ok [0; 3; 2; 9; 14] /\ solution t1 = Ok [7; 6; 8; 21].
Proof. split; vm_compute; reflexivity. Qed.

(** C4: when state 0 is terminal, or the matrix has a single row, the
    answer is exactly [1, 1]. *)
Theorem start_terminal_or_single m :
  length m = 1%nat \/ option_map sum (nth_error m 0) = Some 0 ->
  solution m = Ok [1; 1].
Proof.
  intros [H|H].
  - apply solution_short. lia.
  - destruct m as [|row0 m]; [discriminate|].
    apply solution_start_terminal. cbn in H. congruence.
Qed.

Lemma start_terminal_or_single_witness :
  solution [[0; 0; 0]; [1; 0; 2]; [0; 0; 0]] = Ok [1; 1] /\ solution [[5]] = Ok [1; 1].
Proof.
  split.
  - apply (start_terminal_or_single [[0; 0; 0]; [1; 0; 2]; [0; 0; 0]]).
    right. reflexivity.
  - apply (start_terminal_or_single [[5]]). left. reflexivity.
Defined.

(** C1 fails on the code: for this valid 5 by 5 matrix (one transient
    state, four terminal states, row total 1000007) the returned numerators
    and denominator have the common factor 4, although the claim promises a
    fully reduced representation.  The probabilities are recovered from
    floats by [limit_denominator], whose denominators here have a least
    common multiple beyond 2^53; the quotient [lcd / denominators[num]] is
    then a rounded float, and the scaled numerators are no longer exact. *)
Theorem reduced_form_lost :
  let m := [[0; 1; 2; 4; 1000000]; [0; 0; 0; 0; 0]; [0; 0; 0; 0; 0];
            [0; 0; 0; 0; 0]; [0; 0; 0; 0; 0]] in
  is_square m = true /\ non_negative m = true /\ non_absorbing m = false /\
  terminal_count m = 4%nat /\
  solution m = Ok [16071779466832148; 32143301787250000; 64286689289400000;
                   16071666965182143000000; 16071779466832149000000] /\
  gcd_all [16071779466832148; 32143301787250000; 64286689289400000;
           16071666965182143000000; 16071779466832149000000] = 4.
Proof. repeat split; vm_compute; reflexivity. Qed.

(** C3 fails on the code: for this valid absorbing 4 by 4 matrix the exact
    answer is [1, 1, 1000000, 1000002], but the floats 1/1000002 and
    1000000/1000002 are turned into the nearest fractions with denominator
    at most 10^6, and the returned numerators sum to the denominator plus
    2. *)
Theorem probability_mass_lost :
  let m := [[0; 1; 1; 1000000]; [0; 0; 0; 0]; [0; 0; 0; 0]; [0; 0; 0; 0]] in
  is_square m = true /\ non_negative m = true /\ non_absorbing m = false /\
  solution m = Ok [500001; 500001; 500000000000; 500001000000] /\
  500001 + 500001 + 500000000000 = 500001000000 + 2.
Proof. repeat split; vm_compute; reflexivity. Qed.

(** C5, as stated, fails: the chain [[1]] has a single transient state that
    never reaches a terminal state, and the answer is [1, 1], not an
    error.  What the code does with such chains is stated in
    [NonAbsorbing] below. *)
Lemma trapped_state_not_reported :
  ~ (forall m, non_absorbing m = true -> exists e, solution m = Raise e).
Proof.
  intros H. destruct (H [[1]] eq_refl) as [e He]. discriminate He.
Qed.

End DoomsdayFacts.

(** ** Input validation *)

Module Validation.

(** C6, as stated, fails: the empty matrix is not rejected, it is answered
    [1, 1]; and no height is rejected either, height 0 answers the sentinel. *)
Lemma invalid_shape_not_rejected :
  ~ (forall m, (negb (length m =? 0)%nat && Doomsday.is_square m) = false ->
               exists e, Doomsday.solution m = Doomsday.Raise e)
  /\ IonFlux.solution 0 [1; 2] = [-1; -1].
Proof.
  split; [|reflexivity].
  intros H. destruct (H [] eq_refl) as [e He]. discriminate He.
Qed.

(** C6 (amended): neither function validates the shape of its input.
    [absorption_fractions] answers [1, 1] for the empty matrix and for any
    matrix with a single row, square or not.  [ancestor_labels] called with a
    height [h] below 1 answers the sentinel -1 for every distinct queried
    label, as long as Python can evaluate [2**h], that is for
    [h > -(2^1024 - 2^970)]: a negative [h] is converted to a float first,
    and from [-(2^1024 - 2^970)] downwards that conversion raises
    [OverflowError], an error of the arithmetic and not a validation of the
    height. *)
Theorem shape_not_validated m h q :
  (length m <= 1)%nat -> - (2 ^ 1024 - 2 ^ 970) < h < 1 ->
  Doomsday.solution m = Doomsday.Ok [1; 1] /\
  IonFlux.solution h q = map (fun _ => -1) (IonFlux.first_occurrences q).
Proof.
  intros Hm [_ Hh]. split; [apply DoomsdayFacts.solution_short, Hm|].
  rewrite IonFluxFacts.solution_step.
  apply map_ext. intros x.
  destruct (Z.eq_dec h 0) as [->|Hne]; [reflexivity|].
  replace (Z.to_nat h) with 0%nat by lia. reflexivity.
Qed.

Lemma shape_not_validated_witness :
  Doomsday.solution [[0; 7; 0]] = Doomsday.Ok [1; 1] /\
  IonFlux.solution (-2) [3; 1; 3] = map (fun _ => -1) (IonFlux.first_occurrences [3; 1; 3]).
Proof.
  apply (shape_not_validated [[0; 7; 0]] (-2) [3; 1; 3]);
    [simpl; lia | split; reflexivity].
Defined.

End Validation.

(** ** Further properties of Ion Flux Relabelling *)

Module IonFluxExtra.
Import IonFlux IonFluxFacts.

(** *** [dfs] on any size *)

(** Induction along the halving of [subtreeSize]. *)
Lemma size_induction (P : Z -> Prop) :
  (forall s, s < 1 -> P s) ->
  (forall s, 1 <= s -> P (Z.shiftr s 1) -> P s) ->
  forall s, P s.
Proof.
  intros Hstop Hgo s.
  assert (H : forall n s, (Z.to_nat s <= n)%nat -> P s).
  { clear s. induction n as [|n IH]; intros s Hs.
    - apply Hstop. lia.
    - destruct (Z_lt_dec s 1) as [Hlt|Hge]; [apply Hstop, Hlt|].
      apply Hgo; [lia|]. apply IH.
      rewrite Z.shiftr_div_pow2 by lia. change (2 ^ 1) with 2.
      assert (s / 2 < s) by (apply Z.div_lt; lia).
      assert (0 <= s / 2) by (apply Z.div_pos; lia). lia. }
  apply (H (Z.to_nat s)). lia.
Qed.

Lemma half_bounds s : 1 <= s -> 0 <= Z.shiftr s 1 /\ 2 * Z.shiftr s 1 <= s.
Proof.
  intros Hs. rewrite Z.shiftr_div_pow2 by lia. change (2 ^ 1) with 2.
  pose proof (Z.div_mod s 2 ltac:(lia)). pose proof (Z.mod_pos_bound s 2 ltac:(lia)).
  lia.
Qed.

(** X1: whatever the size, the offset and the dictionary, [dfs] neither
    adds, removes nor reorders queried labels: the keys of [parentLabels]
    are the same, in the same order, after the call. *)
Theorem dfs_preserves_keys : forall s off d, od_keys (dfs s off d) = od_keys d.
Proof.
  intros s. pattern s. apply size_induction; clear s.
  - intros s Hs off d. rewrite dfs_stop by exact Hs. reflexivity.
  - intros s Hs IH off d. rewrite dfs_go by exact Hs.
    rewrite !IH, !od_keys_set_parent. reflexivity.
Qed.

(** X2: an entry that already holds a parent (any value other than -1) is
    never changed by [dfs]: a label is answered on the first visit only. *)
Theorem dfs_keeps_answered : forall s off d x v,
  od_get x d = Some v -> v <> -1 -> od_get x (dfs s off d) = Some v.
Proof.
  intros s. pattern s. apply size_induction; clear s.
  - intros s Hs off d x v Hx _. rewrite dfs_stop by exact Hs. exact Hx.
  - intros s Hs IH off d x v Hx Hv. rewrite dfs_go by exact Hs.
    apply IH; [|exact Hv]. apply IH; [|exact Hv].
    assert (K : forall node p d', od_get x d' = Some v ->
                                  od_get x (set_parent node p d') = Some v).
    { intros node p d' H. rewrite od_get_set_parent, H. cbn [option_map].
      apply Z.eqb_neq in Hv. rewrite Hv, andb_false_r. reflexivity. }
    apply K, K, Hx.
Qed.

Lemma dfs_keeps_answered_witness :
  od_get 4 (dfs 7 0 [(4, 99); (1, -1)]) = Some 99.
Proof. apply (dfs_keeps_answered 7 0 [(4, 99); (1, -1)] 4 99); [reflexivity | lia]. Defined.

(** X3: [dfs(subtreeSize, offset)] only looks at labels from [offset] to
    [offset + subtreeSize]: the entry of any label below or above that range
    is left as it was. *)
Theorem dfs_is_local : forall s off d x,
  x < off \/ off + s < x -> od_get x (dfs s off d) = od_get x d.
Proof.
  intros s. pattern s. apply size_induction; clear s.
  - intros s Hs off d x _. rewrite dfs_stop by exact Hs. reflexivity.
  - intros s Hs IH off d x Hx. rewrite dfs_go by exact Hs.
    destruct (half_bounds s Hs) as [H0 H2].
    rewrite IH by lia. rewrite IH by lia.
    rewrite !od_get_set_parent.
    replace (x =? off + Z.shiftr s 1 + Z.shiftr s 1) with false
      by (symmetry; apply Z.eqb_neq; lia).
    replace (x =? off + Z.shiftr s 1) with false
      by (symmetry; apply Z.eqb_neq; lia).
    destruct (od_get x d); reflexivity.
Qed.

Lemma dfs_is_local_witness :
  od_get 9 (dfs 7 0 [(9, -1); (1, -1)]) = od_get 9 [(9, -1); (1, -1)].
Proof. apply (dfs_is_local 7 0 [(9, -1); (1, -1)] 9). right. lia. Defined.

(** *** [solution] *)




Local Opaque Z.mul Z.pow Z.of_nat.

Lemma step_at_offset k : forall off,
  off + 1 <> -1 -> step (S k) off off (-1) = off + 1.
Proof.
  induction k as [|k IH]; intros off Hoff.
  - cbn [step]. change (2 ^ Z.of_nat 0) with 1.
    change (1 - 1) with 0. rewrite !Z.add_0_r, Z.eqb_refl.
    change (-1 =? -1) with true. cbn [andb].
    destruct (off + 1 =? -1); reflexivity.
  - change (step (S (S k)) off off (-1)) with
      (let half := 2 ^ Z.of_nat (S k) - 1 in
       let leftNode := off + half in
       let rightNode := leftNode + half in
       let parentNode := rightNode + 1 in
       let v1 := if (off =? leftNode) && (-1 =? -1) then parentNode else -1 in
       let v2 := if (off =? rightNode) && (v1 =? -1) then parentNode else v1 in
       step (S k) leftNode off (step (S k) off off v2)).
    cbv zeta. pose proof (pow2_ge2 k) as Hq.
    replace (off =? off + (2 ^ Z.of_nat (S k) - 1)) with false
      by (symmetry; apply Z.eqb_neq; lia).
    cbn [andb].
    replace (off =? off + (2 ^ Z.of_nat (S k) - 1) + (2 ^ Z.of_nat (S k) - 1)) with false
      by (symmetry; apply Z.eqb_neq; lia).
    cbn [andb]. rewrite IH by exact Hoff. apply step_keep. exact Hoff.
Qed.

Lemma zero_gets_one h : 1 <= h -> solution h [0] = [1].
Proof.
  intros Hh. rewrite solution_single.
  destruct (Z.to_nat h) as [|k] eqn:E; [lia|].
  rewrite step_at_offset by lia. reflexivity.
Qed.

(** X5: for every height [h >= 1] the label 0, which no converter carries,
    is answered 1 and not the sentinel: the leftmost leaf is visited with
    [leftNode = rightNode = 0] and [parentNode = 1]. *)
Theorem label_zero_answer h : 1 <= h -> solution h [0] = [1].
Proof.
  intros Hh. rewrite solution_single.
  destruct (Z.to_nat h) as [|k] eqn:E; [lia|].
  rewrite step_at_offset by lia. reflexivity.
Qed.

Lemma label_zero_answer_witness : solution 5 [0] = [1].
Proof. apply (label_zero_answer 5). lia. Defined.

Lemma step_range k : forall off x,
  0 <= off ->
  step k off x (-1) = -1 \/
  off + 1 <= step k off x (-1) <= off + (2 ^ Z.of_nat k - 1).
Proof.
  induction k as [|k IH]; intros off x Hoff.
  - left. reflexivity.
  - cbn [step]. pose proof (pow2_pos k) as Hp. rewrite pow2_S.
    set (half := 2 ^ Z.of_nat k - 1).
    change (-1 =? -1) with true. rewrite andb_true_r.
    destruct (x =? off + half) eqn:E1.
    { replace (_ && _) with false
        by (symmetry; apply andb_false_iff; right; apply Z.eqb_neq; lia).
      rewrite (step_keep k off) by lia. rewrite step_keep by lia. right. lia. }
    destruct (x =? off + half + half) eqn:E2.
    { change (-1 =? -1) with true. cbn [andb].
      rewrite (step_keep k off) by lia. rewrite step_keep by lia. right. lia. }
    change (-1 =? -1) with true. cbn [andb].
    destruct (IH off x Hoff) as [Em|Hr].
    + rewrite Em. destruct (IH (off + half) x ltac:(lia)) as [Em'|Hr'];
        [left; exact Em' | right; lia].
    + rewrite step_keep by lia. right. lia.
Qed.

Local Transparent Z.mul Z.pow Z.of_nat.

(** X6: every entry of the output is either the sentinel -1 or the label of
    a converter of the tree, a number from 1 to [2^h - 1]. *)
Theorem answers_in_tree h q :
  Forall (fun r => r = -1 \/ 1 <= r <= 2 ^ h - 1) (solution h q).
Proof.
  rewrite solution_step. apply Forall_map, Forall_forall. intros x _.
  destruct (step_range (Z.to_nat h) 0 x ltac:(lia)) as [E|R]; [left; exact E|].
  destruct (Z_lt_dec h 0) as [Hneg|Hpos].
  - replace (Z.to_nat h) with 0%nat in * by lia. left. reflexivity.
  - rewrite Z2Nat.id in R by lia. right. lia.
Qed.

(** X7: a label of the tree of height [h] that is not its root keeps its
    parent when the tree grows by one level, and the old root [2^h - 1] gets
    the new root [2^(h+1) - 1]: the smaller tree is the left subtree of the
    larger one, with the same labels. *)
Theorem growing_tree_keeps_parents h x :
  1 <= h -> 1 <= x <= 2 ^ h - 1 ->
  solution (h + 1) [x] =
  (if x =? 2 ^ h - 1 then [2 ^ (h + 1) - 1] else solution h [x]).
Proof.
  intros Hh Hx. rewrite !solution_single.
  replace (Z.to_nat (h + 1)) with (S (Z.to_nat h)) by lia.
  cbn [step]. rewrite Z2Nat.id by lia.
  change (-1 =? -1) with true. rewrite andb_true_r.
  assert (Hp : 2 <= 2 ^ h) by (replace 2 with (2 ^ 1) at 1 by reflexivity;
                               apply Z.pow_le_mono_r; lia).
  replace (0 + (2 ^ h - 1)) with (2 ^ h - 1) by lia.
  rewrite Z.pow_add_r, Z.pow_1_r by lia.
  destruct (x =? 2 ^ h - 1) eqn:E1.
  - replace (_ && _) with false
      by (symmetry; apply andb_false_iff; right; apply Z.eqb_neq; lia).
    rewrite (step_keep _ 0) by lia. rewrite step_keep by lia. f_equal. lia.
  - apply Z.eqb_neq in E1.
    replace (x =? 2 ^ h - 1 + (2 ^ h - 1)) with false
      by (symmetry; apply Z.eqb_neq; lia).
    cbn [andb]. f_equal.
    rewrite answer_parent by lia.
    destruct (flux_parent_some h x) as [p P]; [lia | lia |].
    rewrite P. apply flux_parent_range in P; [|lia]. apply step_keep. lia.
Qed.

Lemma growing_tree_keeps_parents_witness :
  solution (3 + 1) [4] = (if 4 =? 2 ^ 3 - 1 then [2 ^ (3 + 1) - 1] else solution 3 [4]).
Proof. apply (growing_tree_keeps_parents 3 4); [lia | simpl; lia]. Defined.

Lemma answered_label_parent h x p :
  1 <= h -> x <> 0 -> p <> -1 -> solution h [x] = [p] ->
  parent_of (flux_tree h) x = Some p.
Proof.
  intros Hh Hx Hp H. rewrite solution_single, answer_parent in H by lia.
  destruct (parent_of (flux_tree h) x) as [p'|]; congruence.
Qed.

Lemma only_zero_gets_one h x : 1 <= h -> solution h [x] = [1] -> x = 0.
Proof.
  intros Hh H. destruct (Z.eq_dec x 0) as [E|E]; [exact E|].
  apply answered_label_parent in H; [| lia | exact E | lia].
  apply flux_parent_range in H; lia.
Qed.

(** X14: no parent is returned for three different labels: if three labels
    queried alone get the same answer and it is not the sentinel, two of
    them are the same label. *)
Theorem parent_shared_by_two h x y z p :
  1 <= h -> p <> -1 ->
  solution h [x] = [p] -> solution h [y] = [p] -> solution h [z] = [p] ->
  x = y \/ x = z \/ y = z.
Proof.
  intros Hh Hp Hx Hy Hz.
  assert (Zero : forall u v, solution h [u] = [p] -> solution h [v] = [p] ->
                             u = 0 -> v = 0).
  { intros u v Hu Hv ->. rewrite zero_gets_one in Hu by exact Hh.
    injection Hu as <-. apply (only_zero_gets_one h v Hh Hv). }
  destruct (Z.eq_dec x 0) as [Ex|Ex]; [left; rewrite (Zero x y) by assumption; exact Ex|].
  destruct (Z.eq_dec y 0) as [Ey|Ey]; [exfalso; apply Ex; apply (Zero y x); assumption|].
  destruct (Z.eq_dec z 0) as [Ez|Ez]; [exfalso; apply Ex; apply (Zero z x); assumption|].
  apply answered_label_parent in Hx, Hy, Hz; try assumption.
  unfold flux_tree in *. fold (subtree (Z.to_nat h) 1) in *.
  destruct (parent_children _ _ _ _ Hx) as (a & b & C & Hab).
  destruct (parent_children _ _ _ _ Hy) as (a' & b' & C' & Hab').
  destruct (parent_children _ _ _ _ Hz) as (a'' & b'' & C'' & Hab'').
  rewrite C in C', C''. injection C' as <- <-. injection C'' as <- <-.
  lia.
Qed.

Lemma parent_shared_by_two_witness : 4 = 5 \/ 4 = 4 \/ 5 = 4.
Proof.
  apply (parent_shared_by_two 3 4 5 4 6); [lia | lia | reflexivity | reflexivity | reflexivity].
Defined.

End IonFluxExtra.

(** ** Further properties of Doomsday Fuel *)

Module DoomsdayExtra.
Import Doomsday DoomsdayFacts.

(** *** The two blocks of [split_matrix] *)

Lemma mem_is_terminal m c : mem c (find_absorbing m 0) = is_terminal m c.
Proof.
  destruct (is_terminal m c) eqn:T.
  - apply mem_find_absorbing. rewrite Nat.sub_0_r. split; [lia | exact T].
  - destruct (mem c (find_absorbing m 0)) eqn:M; [|reflexivity].
    apply mem_find_absorbing in M. rewrite Nat.sub_0_r in M. destruct M. congruence.
Qed.

Lemma transient_columns m :
  length (filter (fun c => negb (mem c (find_absorbing m 0))) (seq 0 (length m)))
  = transient_count m.
Proof.
  unfold transient_count. f_equal. apply filter_ext. intros c.
  rewrite mem_is_terminal. reflexivity.
Qed.

Lemma split_row_lengths mrow total absorbing cols : forall temp_r temp_q r q,
  split_row mrow total absorbing cols temp_r temp_q = Ok (r, q) ->
  length r = (length temp_r + length (filter (fun c => mem c absorbing) cols))%nat /\
  length q = (length temp_q + length (filter (fun c => negb (mem c absorbing)) cols))%nat.
Proof.
  induction cols as [|col cols IH]; intros temp_r temp_q r q; cbn [split_row filter].
  - intros [= <- <-]. cbn [length]. lia.
  - destruct (index mrow col) as [x|e]; cbn [bind]; [|discriminate].
    destruct (int_div_float x total) as [v|e]; cbn [bind]; [|discriminate].
    destruct (mem col absorbing); cbn [negb]; intros H; apply IH in H;
      rewrite length_app in H; cbn [length] in *; lia.
Qed.

Lemma split_rows_shape m absorbing n tr tq rows : forall r0 q0 r q,
  length (filter (fun c => mem c absorbing) (seq 0 n)) = tr ->
  length (filter (fun c => negb (mem c absorbing)) (seq 0 n)) = tq ->
  Forall (fun row => length row = tr) r0 ->
  Forall (fun row => length row = tq) q0 ->
  split_rows m absorbing n rows r0 q0 = Ok (r, q) ->
  Forall (fun row => length row = tr) r /\
  Forall (fun row => length row = tq) q /\
  length r = (length r0 + length (filter (fun x => negb (mem x absorbing)) rows))%nat /\
  length q = (length q0 + length (filter (fun x => negb (mem x absorbing)) rows))%nat.
Proof.
  induction rows as [|row rows IH]; intros r0 q0 r q Hr Hq Hr0 Hq0;
    cbn [split_rows filter].
  - intros [= <- <-]. cbn [length]. repeat split; try assumption; lia.
  - destruct (mem row absorbing); cbn [negb]; [apply IH; assumption|].
    destruct (index m row) as [mrow|e]; cbn [bind]; [|discriminate].
    destruct (float_of_int (sum mrow)) as [total|e]; cbn [bind]; [|discriminate].
    destruct (split_row _ _ _ _ _ _) as [[temp_r temp_q]|e] eqn:S; cbn [bind];
      [|discriminate].
    intros H. apply split_row_lengths in S. cbn [length] in S.
    apply IH in H; try assumption.
    + rewrite !length_app in H. cbn [length] in *. 
      destruct H as (H1 & H2 & H3 & H4). repeat split; try assumption; lia.
    + apply Forall_app. split; [exact Hr0|]. repeat constructor. lia.
    + apply Forall_app. split; [exact Hq0|]. repeat constructor. lia.
Qed.

(** X8: when [split_matrix] succeeds, [R] and [Q] have one row per
    transient state, every row of [R] has one entry per terminal state and
    every row of [Q] one entry per transient state; in particular [Q] is
    square, as [find_f_submatrix] needs. *)
Theorem split_matrix_shape m r q :
  split_matrix m = Ok (r, q) ->
  length r = transient_count m /\ length q = transient_count m /\
  Forall (fun row => length row = terminal_count m) r /\
  Forall (fun row => length row = transient_count m) q.
Proof.
  unfold split_matrix. intros H.
  apply (split_rows_shape _ _ _ (terminal_count m) (transient_count m)) in H;
    [| apply terminal_columns | apply transient_columns | constructor | constructor].
  rewrite transient_columns in H. cbn [length] in H.
  destruct H as (H1 & H2 & H3 & H4). repeat split; assumption.
Qed.

Lemma split_matrix_shape_witness :
  length [[fone; fzero]] = transient_count [[0; 3; 0]; [0; 0; 0]; [0; 0; 0]] /\
  length [[fzero]] = transient_count [[0; 3; 0]; [0; 0; 0]; [0; 0; 0]] /\
  Forall (fun row => length row = terminal_count [[0; 3; 0]; [0; 0; 0]; [0; 0; 0]])
         [[fone; fzero]] /\
  Forall (fun row => length row = transient_count [[0; 3; 0]; [0; 0; 0]; [0; 0; 0]])
         [[fzero]].
Proof.
  apply (split_matrix_shape [[0; 3; 0]; [0; 0; 0]; [0; 0; 0]] [[fone; fzero]] [[fzero]]).
  vm_compute. reflexivity.
Defined.

(** *** Which exceptions can be raised *)

Lemma raises_only_bind {A B : Type} (P : exn -> Prop) (c : result A) (k : A -> result B) :
  raises_only P c -> (forall a, c = Ok a -> raises_only P (k a)) ->
  raises_only P (bind c k).
Proof.
  unfold raises_only. intros Hc Hk e. destruct c as [a|e']; cbn [bind].
  - apply Hk. reflexivity.
  - intros [= ->]. apply Hc. reflexivity.
Qed.

Lemma raises_only_mapM {A B : Type} (P : exn -> Prop) (f : A -> result B) (l : list A) :
  (forall a, In a l -> raises_only P (f a)) -> raises_only P (mapM f l).
Proof.
  induction l as [|a l IH]; intros H; cbn [mapM]; [intros e; discriminate|].
  apply raises_only_bind; [apply H; left; reflexivity|]. intros b _.
  apply raises_only_bind; [apply IH; intros; apply H; right; assumption|].
  intros bs _ e. discriminate.
Qed.

Lemma raises_only_Ok {A : Type} (P : exn -> Prop) (a : A) : raises_only P (Ok a).
Proof. intros e. discriminate. Qed.

Ltac arith_case :=
  unfold raises_only, arithmetic;
  let e := fresh "e" in let H := fresh "H" in
  intros e H; first [discriminate H | injection H as <-; tauto].

Lemma float_of_int_raises z : raises_only arithmetic (float_of_int z).
Proof. unfold float_of_int. destruct (binary_normalize _ _ _ _ _); arith_case. Qed.

Lemma int_div_float_raises z y : raises_only arithmetic (int_div_float z y).
Proof.
  unfold int_div_float. apply raises_only_bind; [apply float_of_int_raises|].
  intros x _. destruct (is_zero y); arith_case.
Qed.

Lemma true_div_raises a b : raises_only arithmetic (true_div a b).
Proof.
  unfold true_div.
  destruct a, b; try arith_case; destruct (fdiv _ _); arith_case.
Qed.

Lemma int_of_float_raises x : raises_only arithmetic (int_of_float x).
Proof. destruct x; arith_case. Qed.

Lemma floor_div_raises a b : raises_only arithmetic (floor_div a b).
Proof. unfold floor_div. destruct (b =? 0); arith_case. Qed.

Lemma fraction_raises n d : raises_only arithmetic (fraction n d).
Proof. unfold fraction. destruct (d =? 0); arith_case. Qed.

Lemma fraction_of_float_raises x : raises_only arithmetic (fraction_of_float x).
Proof.
  destruct x as [s|s| |s m e]; cbn [fraction_of_float]; try arith_case.
  destruct (0 <=? e); [arith_case | apply fraction_raises].
Qed.

Lemma limit_loop_raises fuel : forall mx p0 q0 p1 q1 n d,
  raises_only (fun e => e = OutOfFuel \/ arithmetic e)
              (limit_loop fuel mx p0 q0 p1 q1 n d).
Proof.
  induction fuel as [|fuel IH]; intros mx p0 q0 p1 q1 n d; cbn [limit_loop].
  - intros e [= <-]. left. reflexivity.
  - apply raises_only_bind.
    + intros e He. right. eapply floor_div_raises, He.
    + intros a _. destruct (mx <? _); [apply raises_only_Ok | apply IH].
Qed.

Lemma limit_denominator_raises self mx :
  0 < denominator self -> raises_only arithmetic (limit_denominator self mx).
Proof.
  intros Hs. unfold limit_denominator.
  destruct (mx <? 1); [arith_case|].
  destruct (denominator self <=? mx); [arith_case|].
  apply raises_only_bind.
  { intros e He. destruct (limit_loop_raises _ _ _ _ _ _ _ _ e He) as [->|Ha];
      [|exact Ha].
    exfalso. revert He. apply limit_loop_total. lia. }
  intros [[[[[p0 q0] p1] q1] n] d] _.
  apply raises_only_bind; [apply floor_div_raises|]. intros k _.
  apply raises_only_bind; [apply fraction_raises|]. intros b1 _.
  apply raises_only_bind; [apply fraction_raises|]. intros b2 _.
  destruct (closer_or_equal _ _ _); apply raises_only_Ok.
Qed.

Lemma recover_raises num : raises_only arithmetic (recover num).
Proof.
  unfold recover. apply raises_only_bind; [apply fraction_of_float_raises|].
  intros f Hf. apply limit_denominator_raises. eapply fraction_of_float_pos, Hf.
Qed.

Lemma recover_pos num f : recover num = Ok f -> 0 < denominator f.
Proof.
  unfold recover. destruct (fraction_of_float num) as [f0|e] eqn:F0; cbn [bind];
    [|discriminate].
  apply limit_denominator_pos. eapply fraction_of_float_pos, F0.
Qed.

Lemma lcd_loop_raises ds : forall lcd,
  Forall (fun d => 0 < d) ds -> raises_only arithmetic (lcd_loop ds lcd).
Proof.
  induction ds as [|d ds IH]; intros lcd H; cbn [lcd_loop]; [apply raises_only_Ok|].
  inversion H as [|? ? Hd Hds]; subst.
  destruct (gcd_loop_total lcd d ltac:(lia)) as [g Hg]. rewrite Hg. cbn [bind].
  apply raises_only_bind; [apply floor_div_raises|].
  intros q _. apply IH, Hds.
Qed.

Lemma probabilities_raises row : raises_only arithmetic (probabilities row).
Proof.
  unfold probabilities.
  apply raises_only_bind.
  { apply raises_only_mapM. intros x _. apply (recover_raises x). }
  intros fractions Hfr.
  assert (Hpos : Forall (fun f => 0 < denominator f) fractions).
  { exact (mapM_Forall (fun f => 0 < denominator f) recover row recover_pos
                       fractions Hfr). }
  apply raises_only_bind.
  { apply lcd_loop_raises. apply Forall_map. exact Hpos. }
  intros lcd _.
  apply raises_only_bind; [|intros; apply raises_only_Ok].
  apply raises_only_mapM. intros [p denom] _.
  apply raises_only_bind; [apply true_div_raises|]. intros x _.
  apply raises_only_bind; [apply int_of_float_raises|]. intros k _.
  apply raises_only_Ok.
Qed.

Lemma index_raises {A : Type} (l : list A) i :
  raises_only (fun e => e = IndexError) (index l i).
Proof.
  unfold index. destruct (nth_error l i); intros e H;
    [discriminate H | injection H as <-; reflexivity].
Qed.

Lemma index_in_range {A : Type} (l : list A) i :
  (i < length l)%nat -> exists a, index l i = Ok a.
Proof.
  intros H. unfold index. destruct (nth_error l i) as [a|] eqn:E; [eauto|].
  apply nth_error_None in E. lia.
Qed.

Lemma split_row_raises mrow total absorbing cols : forall temp_r temp_q,
  raises_only (fun e => e = IndexError \/ arithmetic e)
              (split_row mrow total absorbing cols temp_r temp_q).
Proof.
  induction cols as [|col cols IH]; intros temp_r temp_q; cbn [split_row];
    [apply raises_only_Ok|].
  apply raises_only_bind.
  { intros e He. left. eapply index_raises, He. }
  intros x _. apply raises_only_bind.
  { intros e He. right. eapply int_div_float_raises, He. }
  intros v _. destruct (mem col absorbing); apply IH.
Qed.

Lemma split_row_raises_wide mrow total absorbing cols : forall temp_r temp_q,
  Forall (fun c => (c < length mrow)%nat) cols ->
  raises_only arithmetic (split_row mrow total absorbing cols temp_r temp_q).
Proof.
  induction cols as [|col cols IH]; intros temp_r temp_q H; cbn [split_row];
    [apply raises_only_Ok|].
  inversion H as [|? ? Hc Hcs]; subst.
  destruct (index_in_range mrow col Hc) as [x Hx]. rewrite Hx. cbn [bind].
  apply raises_only_bind; [apply int_div_float_raises|].
  intros v _. destruct (mem col absorbing); apply IH, Hcs.
Qed.

Lemma split_rows_raises m absorbing n rows : forall r q,
  raises_only (fun e => e = IndexError \/ arithmetic e)
              (split_rows m absorbing n rows r q).
Proof.
  induction rows as [|row rows IH]; intros r q; cbn [split_rows];
    [apply raises_only_Ok|].
  destruct (mem row absorbing); [apply IH|].
  apply raises_only_bind.
  { intros e He. left. eapply index_raises, He. }
  intros mrow _. apply raises_only_bind.
  { intros e He. right. eapply float_of_int_raises, He. }
  intros total _. apply raises_only_bind; [apply split_row_raises|].
  intros [temp_r temp_q] _. apply IH.
Qed.

Lemma split_rows_raises_wide m absorbing n rows : forall r q,
  Forall (fun i => (i < length m)%nat) rows ->
  Forall (fun mrow => (n <= length mrow)%nat) m ->
  raises_only arithmetic (split_rows m absorbing n rows r q).
Proof.
  induction rows as [|row rows IH]; intros r q Hrows Hwide; cbn [split_rows];
    [apply raises_only_Ok|].
  inversion Hrows as [|? ? Hr Hrs]; subst.
  destruct (mem row absorbing); [apply IH; assumption|].
  destruct (index_in_range m row Hr) as [mrow Hm]. rewrite Hm. cbn [bind].
  apply raises_only_bind; [apply float_of_int_raises|]. intros total _.
  apply raises_only_bind.
  { apply split_row_raises_wide. apply Forall_forall. intros c Hc.
    apply in_seq in Hc. rewrite Forall_forall in Hwide.
    unfold index in Hm. destruct (nth_error m row) as [mr|] eqn:E; [|discriminate].
    injection Hm as ->. apply nth_error_In in E. specialize (Hwide _ E). lia. }
  intros [temp_r temp_q] _. apply IH; assumption.
Qed.

Lemma eliminate_raises n : forall top bottom,
  raises_only (fun e => e = LinAlgError) (eliminate n top bottom).
Proof.
  induction n as [|n IH]; intros top bottom; cbn [eliminate]; [apply raises_only_Ok|].
  destruct (swap_rows _ _) as [|[pivot piv] rest]; [apply raises_only_Ok|].
  destruct (is_zero pivot); [intros e [= <-]; reflexivity | apply IH].
Qed.

Lemma subtract_raises a b : raises_only (fun e => e = ValueError) (subtract a b).
Proof.
  unfold subtract.
  destruct (columns a); [|intros e [= <-]; reflexivity].
  destruct (columns b); [|intros e [= <-]; reflexivity].
  destruct (broadcast (length a) (length b)); [|intros e [= <-]; reflexivity].
  destruct (broadcast _ _); [apply raises_only_Ok | intros e [= <-]; reflexivity].
Qed.

Lemma inv_raises a : raises_only (fun e => e = LinAlgError) (inv a).
Proof.
  unfold inv. destruct (forallb _ a); [|intros e [= <-]; reflexivity].
  apply raises_only_bind; [apply eliminate_raises|]. intros us _. apply raises_only_Ok.
Qed.

(** The shapes through [find_f_submatrix] *)

Lemma swap_rows_length {A : Type} p (rows : list A) :
  length (swap_rows p rows) = length rows.
Proof.
  unfold swap_rows. destruct p as [|p]; [reflexivity|].
  destruct rows as [|r0 rows]; [reflexivity|].
  destruct (nth_error (r0 :: rows) (S p)) as [rp|] eqn:E; [|reflexivity].
  assert (H : (S p < length (r0 :: rows))%nat)
    by (apply nth_error_Some; congruence).
  cbn [tl length] in *.
  rewrite length_app, length_firstn. cbn [length]. rewrite length_skipn. lia.
Qed.

Lemma above_length top : forall us,
  length (above top us) = (length us + length top)%nat.
Proof.
  induction top as [|r top IH]; intros us; cbn [above length]; [lia|].
  rewrite IH, length_app. cbn [length]. lia.
Qed.

Lemma eliminate_length n : forall top bottom rows,
  eliminate n top bottom = Ok rows ->
  length rows = (length top + length bottom)%nat.
Proof.
  induction n as [|n IH]; intros top bottom rows; cbn [eliminate].
  - intros [= <-]. apply length_app.
  - set (us := above top []).
    set (reduced := map (fun r => (fsub (lead r) (dot_fused (factored r) us), r)) bottom).
    assert (Ltop : length (map2 push us top) = length top).
    { assert (Lus : length us = length top) by (unfold us; rewrite above_length; reflexivity).
      rewrite map2_length; assumption. }
    pose proof (swap_rows_length
                  (pivot_index (hd fzero (map fst reduced)) 0 0 (map fst reduced)) reduced)
      as Hs.
    assert (Lred : length reduced = length bottom) by (unfold reduced; apply length_map).
    destruct (swap_rows _ reduced) as [|[pivot piv] rest].
    + intros [= <-]. cbn [length] in Hs. lia.
    + destruct (is_zero pivot); [discriminate|].
      intros H. apply IH in H.
      rewrite length_app, length_map in H. cbn [length] in *. lia.
Qed.

Lemma forward_substitute_length n : forall i rows,
  length (forward_substitute n i rows) = length rows.
Proof.
  induction n as [|n IH]; intros i rows; [destruct rows; reflexivity|].
  destruct rows as [|r rest]; [reflexivity|].
  cbn [forward_substitute length]. rewrite IH, length_map. reflexivity.
Qed.

Lemma back_substitute_length us : forall i,
  length (back_substitute i us) = length us.
Proof.
  induction us as [|r us IH]; intros i; cbn [back_substitute length];
    [reflexivity | rewrite IH; reflexivity].
Qed.

Lemma identity_length n : length (identity n) = n.
Proof. unfold identity. rewrite length_map, length_seq. reflexivity. Qed.

Lemma inv_length a f : inv a = Ok f -> length f = length a.
Proof.
  unfold inv. destruct (forallb _ a); [|discriminate].
  destruct (eliminate _ _ _) as [rows|e] eqn:E; cbn [bind]; [|discriminate].
  intros [= <-]. apply eliminate_length in E.
  rewrite back_substitute_length, forward_substitute_length, E.
  cbn [length]. rewrite map2_length; [reflexivity|].
  symmetry. apply identity_length.
Qed.

Lemma stretch_length {A : Type} (l : list A) : length (stretch (length l) l) = length l.
Proof.
  destruct l as [|x [|y l]]; cbn [stretch length]; try reflexivity.
Qed.

Lemma broadcast_same x : broadcast x x = Some x.
Proof. unfold broadcast. rewrite Nat.eqb_refl. reflexivity. Qed.

Lemma subtract_length a b d :
  length a = length b -> subtract a b = Ok d -> length d = length b.
Proof.
  intros L. unfold subtract.
  destruct (columns a); [|discriminate]. destruct (columns b); [|discriminate].
  rewrite L, broadcast_same.
  destruct (broadcast _ _); [|discriminate].
  intros [= <-].
  pose proof (stretch_length b) as Sb. pose proof (stretch_length a) as Sa.
  rewrite L in Sa. rewrite map2_length; congruence.
Qed.

Lemma find_f_length q f : find_f_submatrix q = Ok f -> length f = length q.
Proof.
  unfold find_f_submatrix.
  destruct (subtract _ q) as [d|e] eqn:S; cbn [bind]; [|discriminate].
  intros H. apply inv_length in H.
  apply subtract_length in S; [congruence | apply identity_length].
Qed.

Lemma find_f_nonempty q f : q <> [] -> find_f_submatrix q = Ok f -> f <> [].
Proof.
  intros Hq H. apply find_f_length in H. intros ->.
  destruct q; [contradiction | discriminate].
Qed.

Lemma transient_count_pos row0 m :
  sum row0 <> 0 -> (1 <= transient_count (row0 :: m))%nat.
Proof.
  intros H. unfold transient_count. cbn [length seq filter].
  unfold is_terminal at 1. cbn [nth_error].
  replace (sum row0 =? 0) with false by (symmetry; apply Z.eqb_neq; exact H).
  cbn [negb length]. lia.
Qed.

(** X9: on a matrix whose rows all have at least as many entries as the
    matrix has rows (a square matrix in particular) [solution] never raises
    [IndexError]: it returns, or raises numpy's [LinAlgError], or an
    arithmetic exception ([ZeroDivisionError], [OverflowError],
    [ValueError]). *)
Theorem wide_rows_exceptions m :
  Forall (fun row => (length m <= length row)%nat) m ->
  raises_only (fun e => e = LinAlgError \/ arithmetic e) (solution m).
Proof.
  intros Hwide. unfold solution.
  destruct (length m <=? 1)%nat eqn:E1; [apply raises_only_Ok|].
  destruct m as [|row0 m']; [discriminate E1|].
  cbn [index nth_error bind].
  destruct (sum row0 =? 0) eqn:S0; [apply raises_only_Ok|]. apply Z.eqb_neq in S0.
  destruct (split_matrix (row0 :: m')) as [[r q]|e0] eqn:SM; cbn [bind].
  2:{ intros e [= <-]. right. revert SM. unfold split_matrix.
      apply split_rows_raises_wide; [|exact Hwide].
      apply Forall_forall. intros i Hi. apply in_seq in Hi. lia. }
  assert (Hq : q <> []).
  { unfold split_matrix in SM.
    apply (split_rows_shape _ _ _ (terminal_count (row0 :: m'))
                            (transient_count (row0 :: m'))) in SM;
      [| apply terminal_columns | apply transient_columns | constructor | constructor].
    destruct SM as (_ & _ & _ & Lq). rewrite transient_columns in Lq.
    pose proof (transient_count_pos row0 m' S0). intros ->. cbn [length] in Lq. lia. }
  destruct (find_f_submatrix q) as [f|e0] eqn:F; cbn [bind].
  2:{ intros e [= <-]. revert F. unfold find_f_submatrix.
      destruct (subtract _ q) as [d|e1] eqn:S; cbn [bind].
      - intros F. left. eapply inv_raises, F.
      - intros [= <-]. right. apply subtract_raises in S. subst e1.
        unfold arithmetic. tauto. }
  apply (find_f_nonempty q f Hq) in F.
  destruct f as [|f0 f']; [contradiction|].
  unfold dot. cbn [map index nth_error bind].
  intros e He. right. eapply probabilities_raises, He.
Qed.

Lemma wide_rows_exceptions_witness :
  raises_only (fun e => e = LinAlgError \/ arithmetic e) (solution [[0; 1]; [1; 0]]).
Proof.
  apply (wide_rows_exceptions [[0; 1]; [1; 0]]).
  repeat constructor.
Defined.

Lemma split_row_short mrow total absorbing cols : forall temp_r temp_q c,
  In c cols -> (length mrow <= c)%nat ->
  exists e, split_row mrow total absorbing cols temp_r temp_q = Raise e.
Proof.
  induction cols as [|col cols IH]; intros temp_r temp_q c Hin Hc; [destruct Hin|].
  cbn [split_row].
  destruct (index mrow col) as [x|e] eqn:Ix; cbn [bind]; [|eauto].
  destruct (int_div_float x total) as [v|e]; cbn [bind]; [|eauto].
  destruct Hin as [->|Hin].
  - unfold index in Ix. destruct (nth_error mrow c) eqn:E; [|discriminate].
    assert (nth_error mrow c <> None) by congruence.
    apply nth_error_Some in H. lia.
  - destruct (mem col absorbing); eapply IH; eassumption.
Qed.

Lemma split_rows_short m absorbing n rows : forall r q i mrow,
  In i rows -> mem i absorbing = false ->
  nth_error m i = Some mrow -> (length mrow < n)%nat ->
  exists e, split_rows m absorbing n rows r q = Raise e.
Proof.
  induction rows as [|row rows IH]; intros r q i mrow Hin Hi Hm Hlen; [destruct Hin|].
  cbn [split_rows].
  destruct (Nat.eq_dec row i) as [->|Hne].
  - rewrite Hi. unfold index. rewrite Hm. cbn [bind].
    destruct (float_of_int (sum mrow)) as [total|e]; cbn [bind]; [|eauto].
    destruct (split_row_short mrow total absorbing (seq 0 n) [] [] (length mrow))
      as [e He]; [apply in_seq; lia | lia |].
    rewrite He. cbn [bind]. eauto.
  - destruct Hin as [E|Hin]; [contradiction|].
    destruct (mem row absorbing); [eapply IH; eassumption|].
    destruct (index m row) as [mr|e]; cbn [bind]; [|eauto].
    destruct (float_of_int (sum mr)) as [total|e]; cbn [bind]; [|eauto].
    destruct (split_row _ _ _ _ _ _) as [[tr tq]|e]; cbn [bind]; [|eauto].
    eapply IH; eassumption.
Qed.

(** X10: a matrix of two or more rows whose state 0 is transient and in
    which some transient row has fewer entries than the matrix has rows is
    never answered: [solution] raises an exception while splitting the
    matrix ([IndexError] from reading the missing entry, unless an
    arithmetic exception comes first), before any inversion. *)
Theorem short_transient_row_raises m row0 i mrow :
  (2 <= length m)%nat -> nth_error m 0 = Some row0 -> sum row0 <> 0 ->
  nth_error m i = Some mrow -> sum mrow <> 0 -> (length mrow < length m)%nat ->
  exists e, solution m = Raise e /\ (e = IndexError \/ arithmetic e).
Proof.
  intros Hn H0 S0 Hi Si Hlen. unfold solution.
  destruct (length m <=? 1)%nat eqn:E; [apply Nat.leb_le in E; lia|].
  unfold index. rewrite H0. cbn [bind].
  replace (sum row0 =? 0) with false by (symmetry; apply Z.eqb_neq; exact S0).
  assert (Hmem : mem i (find_absorbing m 0) = false).
  { rewrite mem_is_terminal. unfold is_terminal. rewrite Hi.
    apply Z.eqb_neq. exact Si. }
  destruct (split_rows_short m (find_absorbing m 0) (length m) (seq 0 (length m))
                             [] [] i mrow) as [e He]; try assumption.
  { apply in_seq. assert (nth_error m i <> None) by congruence.
    apply nth_error_Some in H. lia. }
  exists e. unfold split_matrix. rewrite He. cbn [bind]. split; [reflexivity|].
  eapply split_rows_raises, He.
Qed.

Lemma short_transient_row_raises_witness :
  exists e, solution [[1; 2]; [0; 0]; [0; 0]] = Raise e /\ (e = IndexError \/ arithmetic e).
Proof.
  apply (short_transient_row_raises [[1; 2]; [0; 0]; [0; 0]] [1; 2] 0%nat [1; 2]);
    first [reflexivity | discriminate | simpl; lia].
Defined.

(** *** The common denominator *)

Lemma gcd_loop_gcd fuel : forall a b g,
  0 <= a -> 0 <= b -> gcd_loop fuel a b = Ok g -> g = Z.gcd a b.
Proof.
  induction fuel as [|fuel IH]; intros a b g Ha Hb; cbn [gcd_loop]; [discriminate|].
  destruct (b =? 0) eqn:E.
  - apply Z.eqb_eq in E. subst b. intros [= <-]. rewrite Z.gcd_0_r. lia.
  - apply Z.eqb_neq in E. intros H. apply IH in H; [| lia |].
    + rewrite H, Z.gcd_comm, Z.gcd_mod by exact E. apply Z.gcd_comm.
    + pose proof (Z.mod_pos_bound a b ltac:(lia)). lia.
Qed.

Lemma lcd_step lcd d : 0 < lcd -> 0 < d -> lcd / Z.gcd lcd d * d = Z.lcm lcd d.
Proof.
  intros Hl Hd. unfold Z.lcm.
  pose proof (Z.gcd_nonneg lcd d) as Hg.
  assert (Hg0 : Z.gcd lcd d <> 0) by (intros H; apply Z.gcd_eq_0_r in H; lia).
  destruct (Z.gcd_divide_l lcd d) as [c1 H1].
  destruct (Z.gcd_divide_r lcd d) as [c2 H2].
  set (g := Z.gcd lcd d) in *. clearbody g.
  assert (0 < c1) by nia. assert (0 < c2) by nia.
  subst lcd d. rewrite !Z.div_mul by exact Hg0.
  rewrite Z.abs_eq by nia. ring.
Qed.

Lemma lcm_pos a b : 0 < a -> 0 < b -> 0 < Z.lcm a b.
Proof.
  intros Ha Hb. pose proof (Z.lcm_nonneg a b).
  assert (Z.lcm a b <> 0) by (rewrite Z.lcm_eq_0; lia). lia.
Qed.

Lemma fold_lcm_pos ds : forall lcd,
  0 < lcd -> Forall (fun d => 0 < d) ds -> 0 < fold_left Z.lcm ds lcd.
Proof.
  induction ds as [|d ds IH]; intros lcd Hl H; cbn [fold_left]; [exact Hl|].
  inversion H; subst. apply IH; [apply lcm_pos|]; assumption.
Qed.

Lemma lcd_loop_lcm ds : forall lcd,
  0 < lcd -> Forall (fun d => 0 < d) ds ->
  lcd_loop ds lcd = Ok (fold_left Z.lcm ds lcd).
Proof.
  induction ds as [|d ds IH]; intros lcd Hl H; cbn [lcd_loop fold_left]; [reflexivity|].
  inversion H as [|? ? Hd Hds]; subst.
  destruct (gcd_loop_total lcd d ltac:(lia)) as [g Hg]. rewrite Hg. cbn [bind].
  apply gcd_loop_gcd in Hg; [|lia|lia]. subst g.
  unfold floor_div.
  replace (Z.gcd lcd d =? 0) with false
    by (symmetry; apply Z.eqb_neq; intros E; apply Z.gcd_eq_0_r in E; lia).
  cbn [bind]. rewrite lcd_step by assumption.
  apply IH; [apply lcm_pos; assumption | exact Hds].
Qed.

(** X11: the last entry [probabilities] returns is the least common
    multiple of the denominators of the fractions recovered from the row,
    a positive number; before it comes one numerator per entry of the
    row. *)
Theorem common_denominator_is_lcm row out :
  probabilities row = Ok out ->
  exists fractions numerators,
    mapM recover row = Ok fractions /\
    length numerators = length row /\
    out = numerators ++ [fold_left Z.lcm (map denominator fractions) 1] /\
    0 < fold_left Z.lcm (map denominator fractions) 1.
Proof.
  unfold probabilities. fold recover.
  change (mapM (fun num => f <- fraction_of_float num;; limit_denominator f 1000000) row)
    with (mapM recover row).
  destruct (mapM recover row) as [fractions|e] eqn:M; cbn [bind]; [|discriminate].
  assert (Hpos : Forall (fun d => 0 < d) (map denominator fractions)).
  { apply Forall_map.
    exact (mapM_Forall (fun f => 0 < denominator f) recover row recover_pos
                       fractions M). }
  rewrite (lcd_loop_lcm _ 1) by (try lia; exact Hpos). cbn [bind].
  destruct (mapM _ (combine _ _)) as [scaled|e] eqn:M2; cbn [bind]; [|discriminate].
  intros [= <-]. exists fractions, scaled.
  split; [reflexivity|]. split.
  - apply mapM_length in M, M2.
    rewrite M2, length_combine, !length_map, M. lia.
  - split; [reflexivity|]. apply fold_lcm_pos; [lia | exact Hpos].
Qed.

Lemma common_denominator_is_lcm_witness :
  exists fractions numerators,
    mapM recover [S754_finite false 4503599627370496 (-53); fone] = Ok fractions /\
    length numerators = length [S754_finite false 4503599627370496 (-53); fone] /\
    [1; 2; 2] = numerators ++ [fold_left Z.lcm (map denominator fractions) 1] /\
    0 < fold_left Z.lcm (map denominator fractions) 1.
Proof.
  apply (common_denominator_is_lcm [S754_finite false 4503599627370496 (-53); fone]).
  vm_compute. reflexivity.
Defined.

(** *** The recovered fractions *)

Lemma fraction_lowest n d f :
  fraction n d = Ok f -> Z.gcd (numerator f) (denominator f) = 1.
Proof.
  unfold fraction. destruct (d =? 0) eqn:E; [discriminate|].
  apply Z.eqb_neq in E. intros [= <-]. cbn [numerator denominator].
  assert (Hg0 : Z.gcd n d <> 0) by (intros H; apply Z.gcd_eq_0_r in H; contradiction).
  destruct (d <? 0).
  - destruct (Z.gcd_divide_l n d) as [c1 H1].
    destruct (Z.gcd_divide_r n d) as [c2 H2].
    pose proof (Z.gcd_div_gcd n d (Z.gcd n d) Hg0 eq_refl) as G.
    set (g := Z.gcd n d) in *. clearbody g. subst n d.
    rewrite !Z.div_mul in G by exact Hg0.
    replace (c1 * g) with (- c1 * - g) by ring.
    replace (c2 * g) with (- c2 * - g) by ring.
    rewrite !Z.div_mul by lia. rewrite Z.gcd_opp_l, Z.gcd_opp_r. exact G.
  - apply Z.gcd_div_gcd; [exact Hg0 | reflexivity].
Qed.

Lemma fraction_den_le n d f : 0 < d -> fraction n d = Ok f -> denominator f <= d.
Proof.
  intros Hd. unfold fraction.
  replace (d =? 0) with false by (symmetry; apply Z.eqb_neq; lia).
  replace (d <? 0) with false by (symmetry; apply Z.ltb_ge; lia).
  intros [= <-]. cbn [denominator].
  pose proof (Z.gcd_nonneg n d) as Hg.
  assert (Hg0 : Z.gcd n d <> 0) by (intros H; apply Z.gcd_eq_0_r in H; lia).
  destruct (Z.gcd_divide_r n d) as [c2 H2].
  set (g := Z.gcd n d) in *. clearbody g.
  rewrite H2 at 1. rewrite Z.div_mul by exact Hg0. nia.
Qed.

Lemma fraction_of_float_lowest x f :
  fraction_of_float x = Ok f -> Z.gcd (numerator f) (denominator f) = 1.
Proof.
  destruct x as [s|s| |s m e]; cbn [fraction_of_float]; try discriminate.
  - intros [= <-]. reflexivity.
  - destruct (0 <=? e); [|apply fraction_lowest].
    intros [= <-]. cbn [numerator denominator]. apply Z.gcd_1_r.
Qed.

(** The loop keeps both denominators between 0 and [max_denominator], the
    newer one at least 1. *)
Lemma limit_loop_bounds fuel : forall mx p0 q0 p1 q1 n d p0' q0' p1' q1' n' d',
  0 <= q0 <= mx -> 1 <= q1 <= mx -> 0 <= d < n ->
  limit_loop fuel mx p0 q0 p1 q1 n d = Ok (p0', q0', p1', q1', n', d') ->
  0 <= q0' <= mx /\ 1 <= q1' <= mx.
Proof.
  induction fuel as [|fuel IH]; intros mx p0 q0 p1 q1 n d p0' q0' p1' q1' n' d' H0 H1 Hd;
    cbn [limit_loop]; [discriminate|].
  unfold floor_div. destruct (d =? 0) eqn:E; cbn [bind]; [discriminate|].
  apply Z.eqb_neq in E.
  assert (Ha : 0 < n / d) by (apply Z.div_str_pos; lia).
  destruct (mx <? q0 + n / d * q1) eqn:B.
  - intros [= <- <- <- <- <- <-]. split; assumption.
  - apply Z.ltb_ge in B. apply IH; [lia | nia |].
    replace (n - n / d * d) with (n mod d) by (rewrite Z.mod_eq by exact E; ring).
    pose proof (Z.mod_pos_bound n d ltac:(lia)). lia.
Qed.

Lemma limit_denominator_bounds self mx f :
  0 < denominator self -> limit_denominator self mx = Ok f ->
  1 <= denominator f <= mx.
Proof.
  intros Hs H. pose proof (limit_denominator_pos _ _ _ Hs H) as Hpos.
  split; [lia|]. revert H. unfold limit_denominator.
  destruct (mx <? 1) eqn:M1; [discriminate|]. apply Z.ltb_ge in M1.
  destruct (denominator self <=? mx) eqn:M2.
  { apply Z.leb_le in M2. intros [= <-]. exact M2. }
  apply Z.leb_gt in M2.
  destruct (loop_bound (denominator self)) as [|fuel] eqn:LB;
    [unfold loop_bound in LB; lia|].
  cbn [limit_loop]. unfold floor_div at 1.
  replace (denominator self =? 0) with false by (symmetry; apply Z.eqb_neq; lia).
  cbn [bind].
  replace (1 + numerator self / denominator self * 0) with 1 by ring.
  replace (mx <? 1) with false by (symmetry; apply Z.ltb_ge; lia).
  set (a := numerator self / denominator self).
  destruct (limit_loop fuel mx 1 0 (0 + a * 1) 1 (denominator self)
                       (numerator self - a * denominator self))
    as [[[[[[p0 q0] p1] q1] n] d]|e] eqn:L; cbn [bind]; [|discriminate].
  apply limit_loop_bounds in L; [| lia | lia |].
  2:{ unfold a.
      replace (numerator self - numerator self / denominator self * denominator self)
        with (numerator self mod denominator self)
        by (rewrite Z.mod_eq by lia; ring).
      pose proof (Z.mod_pos_bound (numerator self) (denominator self) ltac:(lia)). lia. }
  destruct L as [Hq0 Hq1].
  unfold floor_div. replace (q1 =? 0) with false by (symmetry; apply Z.eqb_neq; lia).
  cbn [bind].
  set (k := (mx - q0) / q1).
  assert (Hk : 0 <= k) by (apply Z.div_pos; lia).
  assert (Hkq : q1 * k <= mx - q0) by (apply Z.mul_div_le; lia).
  assert (Hden : 1 <= q0 + k * q1).
  { destruct (Z.eq_dec q0 0) as [->|Hne]; [|nia].
    assert (0 < k) by (unfold k; apply Z.div_str_pos; lia). nia. }
  destruct (fraction (p0 + k * p1) _) as [b1|e] eqn:B1; cbn [bind]; [|discriminate].
  destruct (fraction p1 q1) as [b2|e] eqn:B2; cbn [bind]; [|discriminate].
  apply fraction_den_le in B1; [|lia]. apply fraction_den_le in B2; [|lia].
  destruct (closer_or_equal _ _ _); intros [= <-]; lia.
Qed.

Lemma limit_denominator_lowest self mx f :
  Z.gcd (numerator self) (denominator self) = 1 ->
  limit_denominator self mx = Ok f ->
  Z.gcd (numerator f) (denominator f) = 1.
Proof.
  intros Hs. unfold limit_denominator.
  destruct (mx <? 1); [discriminate|].
  destruct (denominator self <=? mx); [intros [= <-]; exact Hs|].
  destruct (limit_loop _ _ _ _ _ _ _ _) as [[[[[[p0 q0] p1] q1] n] d]|e];
    cbn [bind]; [|discriminate].
  destruct (floor_div _ _) as [k|e]; cbn [bind]; [|discriminate].
  destruct (fraction (p0 + k * p1) _) as [b1|e] eqn:B1; cbn [bind]; [|discriminate].
  destruct (fraction p1 q1) as [b2|e] eqn:B2; cbn [bind]; [|discriminate].
  apply fraction_lowest in B1, B2.
  destruct (closer_or_equal _ _ _); intros [= <-]; assumption.
Qed.

(** X12: every fraction [probabilities] recovers from a float with
    [Fraction(num).limit_denominator()] is in lowest terms and has a
    denominator between 1 and 1000000, however small or large the float. *)
Theorem recovered_fraction_bounded num f :
  recover num = Ok f ->
  1 <= denominator f <= 1000000 /\ Z.gcd (numerator f) (denominator f) = 1.
Proof.
  unfold recover.
  destruct (fraction_of_float num) as [f0|e] eqn:F0; cbn [bind]; [|discriminate].
  intros H. split.
  - eapply limit_denominator_bounds; [|exact H]. eapply fraction_of_float_pos, F0.
  - eapply limit_denominator_lowest; [|exact H]. eapply fraction_of_float_lowest, F0.
Qed.

Lemma recovered_fraction_bounded_witness :
  1 <= denominator (mkFraction 166668 500003) <= 1000000 /\
  Z.gcd (numerator (mkFraction 166668 500003)) (denominator (mkFraction 166668 500003)) = 1.
Proof.
  apply (recovered_fraction_bounded (S754_finite false 6004811512723639 (-54))).
  vm_compute. reflexivity.
Defined.

(** X13: past the early return, a value returned by [solution] has one
    entry per terminal state of the matrix followed by one more entry, the
    common denominator. *)
Theorem answer_shape m out :
  (2 <= length m)%nat -> option_map sum (nth_error m 0) <> Some 0 ->
  solution m = Ok out ->
  length out = S (terminal_count m) /\ exists numerators lcd, out = numerators ++ [lcd].
Proof.
  intros Hn H0 H.
  destruct (solution_shape m out Hn H0 H) as [L (numerators & lcd & E)].
  split; [exact L|]. exists numerators, lcd. exact E.
Qed.

Lemma answer_shape_witness :
  length [0; 3; 2; 9; 14] = S (terminal_count t2) /\
  exists numerators lcd, [0; 3; 2; 9; 14] = numerators ++ [lcd].
Proof.
  apply (answer_shape t2 [0; 3; 2; 9; 14]);
    [simpl; lia | discriminate | vm_compute; reflexivity].
Defined.

End DoomsdayExtra.

(** ** Chains that never absorb *)

Module NonAbsorbing.
Import Doomsday DoomsdayFacts DoomsdayExtra.

(** *** No division by zero

    [split_matrix] divides by [float(sum(m[row]))] for rows whose sum is not
    zero, and the float of a nonzero int is not zero: rounding keeps at least
    one bit of the mantissa. *)

Lemma digits2_pos_le m : 2 ^ (Zpos (digits2_pos m) - 1) <= Zpos m.
Proof.
  induction m as [m IH|m IH|]; cbn [digits2_pos].
  - rewrite Pos2Z.inj_succ. replace (Z.succ (Zpos (digits2_pos m)) - 1)
      with (Z.succ (Zpos (digits2_pos m) - 1)) by lia.
    rewrite Z.pow_succ_r by lia. lia.
  - rewrite Pos2Z.inj_succ. replace (Z.succ (Zpos (digits2_pos m)) - 1)
      with (Z.succ (Zpos (digits2_pos m) - 1)) by lia.
    rewrite Z.pow_succ_r by lia. lia.
  - reflexivity.
Qed.

Lemma shr_1_m r : 0 <= shr_m r -> shr_m (shr_1 r) = shr_m r / 2.
Proof.
  destruct r as [m rb sb]. cbn [shr_m shr_1]. intros H.
  destruct m as [|[p|p|]|p]; cbn [shr_m]; try lia; try reflexivity.
  - apply Z.div_unique with 1; lia.
  - apply Z.div_unique with 0; lia.
Qed.

Lemma iter_shr_1_m p : forall r,
  0 <= shr_m r -> shr_m (iter_pos shr_1 p r) = shr_m r / 2 ^ Zpos p.
Proof.
  assert (Hnn : forall r, 0 <= shr_m r -> 0 <= shr_m (shr_1 r)).
  { intros r H. rewrite shr_1_m by exact H. apply Z.div_pos; lia. }
  induction p as [p IH|p IH|]; intros r H; cbn [iter_pos].
  - assert (H1 : 0 <= shr_m (shr_1 r)) by (apply Hnn, H).
    assert (H2 : 0 <= shr_m (iter_pos shr_1 p (shr_1 r))).
    { rewrite IH by exact H1. apply Z.div_pos; [exact H1 | lia]. }
    rewrite IH by exact H2. rewrite IH by exact H1. rewrite shr_1_m by exact H.
    rewrite !Z.div_div by lia. f_equal.
    rewrite Pos2Z.inj_xI. rewrite Z.pow_add_r, Z.pow_mul_r by lia.
    change (2 ^ 2) with 4. rewrite Z.pow_1_r.
    replace (4 ^ Zpos p) with (2 ^ Zpos p * 2 ^ Zpos p); [ring|].
    rewrite <- Z.pow_add_r by lia. replace (Zpos p + Zpos p) with (2 * Zpos p) by lia.
    rewrite Z.pow_mul_r by lia. reflexivity.
  - assert (H2 : 0 <= shr_m (iter_pos shr_1 p r)).
    { rewrite IH by exact H. apply Z.div_pos; [exact H | lia]. }
    rewrite IH by exact H2. rewrite IH by exact H.
    rewrite Z.div_div by lia. f_equal.
    rewrite Pos2Z.inj_xO. rewrite <- Z.pow_add_r by lia. f_equal. lia.
  - rewrite shr_1_m by exact H. reflexivity.
Qed.

Lemma shr_record_of_loc_m m l : shr_m (shr_record_of_loc m l) = m.
Proof. destruct l as [|[]]; reflexivity. Qed.

Lemma shr_fexp_pos p e mx ex lx :
  0 < p -> 0 < mx -> emin p e <= ex ->
  0 < shr_m (fst (shr_fexp p e mx ex lx)) /\ emin p e <= snd (shr_fexp p e mx ex lx).
Proof.
  intros Hp Hm He. unfold shr_fexp, shr.
  destruct mx as [|m|m]; try lia.
  cbn [Zdigits2].
  pose proof (digits2_pos_le m) as Hd.
  remember (fexp p e (Zpos (digits2_pos m) + ex) - ex) as n eqn:En.
  destruct n as [|k|k]; cbn [fst snd]; rewrite ?shr_record_of_loc_m; try (split; lia).
  unfold fexp in En.
  rewrite iter_shr_1_m by (rewrite shr_record_of_loc_m; lia).
  rewrite shr_record_of_loc_m. split; [|lia].
  apply Z.div_str_pos. split; [apply Z.pow_pos_nonneg; lia|].
  eapply Z.le_trans; [|exact Hd]. apply Z.pow_le_mono_r; lia.
Qed.

Lemma round_nearest_even_pos m l : 0 < m -> 0 < round_nearest_even m l.
Proof.
  intros H. destruct l as [|[]]; cbn [round_nearest_even]; try lia.
  destruct (Z.even m); lia.
Qed.

Lemma binary_round_aux_nonzero p e s mx ex lx :
  0 < p -> 0 < mx -> emin p e <= ex ->
  forall s', binary_round_aux p e s mx ex lx <> S754_zero s'.
Proof.
  intros Hp Hm He s'. unfold binary_round_aux.
  pose proof (shr_fexp_pos p e mx ex lx Hp Hm He) as H1.
  destruct (shr_fexp p e mx ex lx) as [mrs1 e1]. cbn [fst snd] in H1.
  destruct H1 as [H1 H1e].
  pose proof (shr_fexp_pos p e (round_nearest_even (shr_m mrs1) (loc_of_shr_record mrs1))
                e1 loc_Exact Hp (round_nearest_even_pos _ _ H1) H1e) as H2.
  destruct (shr_fexp p e _ e1 loc_Exact) as [mrs2 e2]. cbn [fst snd] in H2.
  destruct H2 as [H2 _].
  destruct (shr_m mrs2); try lia.
  destruct (Z.leb _ _); discriminate.
Qed.

Lemma float_of_int_nonzero z x :
  z <> 0 -> float_of_int z = Ok x -> is_zero x = false.
Proof.
  intros Hz. unfold float_of_int, binary_normalize.
  assert (H : forall s m s', binary_round prec emax s m 0 <> S754_zero s').
  { intros s m s'. unfold binary_round.
    destruct (shl_align m 0 _) as [mz ez] eqn:E.
    apply binary_round_aux_nonzero; [reflexivity | reflexivity |].
    unfold shl_align in E.
    destruct (fexp prec emax (Zpos (digits2_pos m) + 0) - 0) eqn:F;
      injection E as <- <-; try (vm_compute; discriminate).
    unfold fexp in *. lia. }
  destruct z as [|m|m]; [contradiction| |].
  - specialize (H false m).
    destruct (binary_round prec emax false m 0) as [s0| | |]; try discriminate;
      intros [= <-]; try reflexivity.
    exfalso. eapply H. reflexivity.
  - specialize (H true m).
    destruct (binary_round prec emax true m 0) as [s0| | |]; try discriminate;
      intros [= <-]; try reflexivity.
    exfalso. eapply H. reflexivity.
Qed.

(** [limit_denominator] divides by the remainders of Euclid's algorithm
    on numerator and denominator.  For a fraction in lowest terms whose
    denominator exceeds [max_denominator], a remainder can only vanish after
    the denominators [q0], [q1] of the convergents have passed
    [max_denominator], and the loop has left by then: throughout,
    [q1 * n + q0 * d] is the denominator of the fraction. *)

Lemma limit_loop_divides D fuel : forall mx p0 q0 p1 q1 n d,
  mx < D -> q1 * n + q0 * d = D -> Z.gcd n d = 1 ->
  0 <= q0 -> 0 <= q1 <= mx -> 0 < d -> 0 < n \/ q1 = 0 ->
  raises_only (fun e => e = OutOfFuel) (limit_loop fuel mx p0 q0 p1 q1 n d).
Proof.
  induction fuel as [|fuel IH]; intros mx p0 q0 p1 q1 n d HD Hinv Hg H0 H1 Hd Hn;
    cbn [limit_loop]; [intros e [= <-]; reflexivity|].
  unfold floor_div. replace (d =? 0) with false by (symmetry; apply Z.eqb_neq; lia).
  cbn [bind].
  destruct (mx <? q0 + n / d * q1) eqn:B; [apply raises_only_Ok|].
  apply Z.ltb_ge in B.
  assert (Hmod : n - n / d * d = n mod d) by (rewrite Z.mod_eq by lia; ring).
  pose proof (Z.mod_pos_bound n d Hd) as Hr.
  assert (Hg' : Z.gcd d (n mod d) = 1).
  { rewrite Z.gcd_comm, Z.gcd_mod by lia. rewrite Z.gcd_comm. exact Hg. }
  assert (Hq2 : 0 <= q0 + n / d * q1).
  { destruct Hn as [Hn| ->]; [|lia].
    assert (0 <= n / d) by (apply Z.div_pos; lia). nia. }
  rewrite Hmod. apply (IH mx); try lia; try exact Hg'.
  destruct (Z.eq_dec (n mod d) 0) as [E|E]; [|lia].
  rewrite E, Z.gcd_0_r in Hg'. rewrite Z.abs_eq in Hg' by lia. subst d.
  rewrite <- Hmod in E. nia.
Qed.

Lemma limit_denominator_total self mx :
  0 < denominator self -> Z.gcd (numerator self) (denominator self) = 1 ->
  raises_only (fun e => e = ValueError) (limit_denominator self mx).
Proof.
  intros Hs Hg. unfold limit_denominator.
  destruct (mx <? 1) eqn:M1; [intros e [= <-]; reflexivity|]. apply Z.ltb_ge in M1.
  destruct (denominator self <=? mx) eqn:M2; [apply raises_only_Ok|].
  apply Z.leb_gt in M2.
  set (N := numerator self) in *. set (D := denominator self) in *.
  destruct (loop_bound D) as [|fuel] eqn:LB; [unfold loop_bound in LB; lia|].
  cbn [limit_loop]. unfold floor_div at 1.
  replace (D =? 0) with false by (symmetry; apply Z.eqb_neq; lia).
  cbn [bind].
  replace (1 + N / D * 0) with 1 by ring.
  replace (mx <? 1) with false by (symmetry; apply Z.ltb_ge; lia).
  set (a := N / D).
  assert (Hmod : N - a * D = N mod D) by (unfold a; rewrite Z.mod_eq by lia; ring).
  pose proof (Z.mod_pos_bound N D ltac:(lia)) as Hr.
  assert (Hg' : Z.gcd D (N mod D) = 1).
  { rewrite Z.gcd_comm, Z.gcd_mod by lia. rewrite Z.gcd_comm. exact Hg. }
  assert (Hpos : 0 < N mod D).
  { destruct (Z.eq_dec (N mod D) 0) as [E|E]; [|lia].
    rewrite E, Z.gcd_0_r, Z.abs_eq in Hg' by lia. lia. }
  rewrite Hmod.
  destruct (limit_loop fuel mx 1 0 (0 + a * 1) 1 D (N mod D))
    as [[[[[[p0 q0] p1] q1] n] d]|e] eqn:L; cbn [bind].
  - apply limit_loop_bounds in L; [| lia | lia | lia].
    destruct L as [Hq0 Hq1].
    unfold floor_div. replace (q1 =? 0) with false by (symmetry; apply Z.eqb_neq; lia).
    cbn [bind].
    set (k := (mx - q0) / q1).
    assert (Hk : 0 <= k) by (apply Z.div_pos; lia).
    assert (Hden : 1 <= q0 + k * q1).
    { destruct (Z.eq_dec q0 0) as [->|Hne]; [|nia].
      assert (0 < k) by (unfold k; apply Z.div_str_pos; lia). nia. }
    unfold fraction.
    replace (q0 + k * q1 =? 0) with false by (symmetry; apply Z.eqb_neq; lia).
    replace (q1 =? 0) with false by (symmetry; apply Z.eqb_neq; lia).
    cbn [bind]. destruct (closer_or_equal _ _ _); apply raises_only_Ok.
  - intros e' [= <-]. exfalso.
    assert (He : e = OutOfFuel).
    { apply (limit_loop_divides D fuel mx 1 0 (0 + a * 1) 1 D (N mod D)); try lia.
      exact L. }
    subst e. revert L.
    apply (limit_loop_fuel (S (Z.to_nat (Z.log2 D)))).
    + rewrite Nat2Z.inj_succ, Z2Nat.id by apply Z.log2_nonneg.
      split; [lia|]. eapply Z.lt_trans; [apply Hr|]. apply Z.log2_spec. lia.
    + unfold loop_bound in LB. rewrite Z.abs_eq in LB by lia. lia.
Qed.

(** *** The exceptions of each step *)

Lemma float_of_int_overflow z : raises_only (fun e => e = OverflowError) (float_of_int z).
Proof.
  unfold float_of_int. destruct (binary_normalize _ _ _ _ _);
    intros e' H; first [discriminate H | injection H as <-; reflexivity].
Qed.

Lemma int_div_float_overflow z y :
  is_zero y = false -> raises_only (fun e => e = OverflowError) (int_div_float z y).
Proof.
  intros Hy. unfold int_div_float.
  apply raises_only_bind; [apply float_of_int_overflow|].
  intros x _. rewrite Hy. apply raises_only_Ok.
Qed.

Lemma true_div_overflow a b :
  b <> 0 -> raises_only (fun e => e = OverflowError) (true_div a b).
Proof.
  intros Hb. unfold true_div.
  destruct a, b; try contradiction; try apply raises_only_Ok;
    destruct (fdiv _ _); intros e' H;
    first [discriminate H | injection H as <-; reflexivity].
Qed.

Lemma int_of_float_conversion x : raises_only conversion (int_of_float x).
Proof.
  destruct x; intros e' H;
    first [discriminate H | injection H as <-; unfold conversion; tauto].
Qed.

Lemma fraction_of_float_conversion x : raises_only conversion (fraction_of_float x).
Proof.
  destruct x as [s|s| |s m e]; cbn [fraction_of_float];
    try (intros e' H; first [discriminate H | injection H as <-; unfold conversion; tauto]).
  destruct (0 <=? e) eqn:E; [apply raises_only_Ok|]. apply Z.leb_gt in E.
  unfold fraction.
  replace (2 ^ (- e) =? 0) with false; [apply raises_only_Ok|].
  symmetry. apply Z.eqb_neq.
  assert (0 < 2 ^ (- e)) by (apply Z.pow_pos_nonneg; lia). lia.
Qed.

Lemma recover_conversion num : raises_only conversion (recover num).
Proof.
  unfold recover. apply raises_only_bind; [apply fraction_of_float_conversion|].
  intros f Hf e He. right.
  eapply limit_denominator_total; [| | exact He].
  - eapply fraction_of_float_pos, Hf.
  - eapply fraction_of_float_lowest, Hf.
Qed.

Lemma probabilities_conversion row : raises_only conversion (probabilities row).
Proof.
  unfold probabilities.
  apply raises_only_bind.
  { apply raises_only_mapM. intros x _. apply (recover_conversion x). }
  intros fractions Hfr.
  assert (Hpos : Forall (fun f => 0 < denominator f) fractions).
  { exact (mapM_Forall (fun f => 0 < denominator f) recover row recover_pos
                       fractions Hfr). }
  rewrite (lcd_loop_lcm _ 1) by (try lia; apply Forall_map; exact Hpos).
  cbn [bind].
  apply raises_only_bind; [|intros; apply raises_only_Ok].
  apply raises_only_mapM. intros [p denom] Hin.
  apply in_combine_r in Hin. apply in_map_iff in Hin. destruct Hin as (f & <- & Hf).
  rewrite Forall_forall in Hpos. specialize (Hpos f Hf).
  apply raises_only_bind.
  { intros e He. left. eapply true_div_overflow; [|exact He]. lia. }
  intros x _.
  apply raises_only_bind; [apply int_of_float_conversion|]. intros k _.
  apply raises_only_Ok.
Qed.

Lemma split_row_reading mrow total absorbing cols : forall temp_r temp_q,
  is_zero total = false ->
  raises_only (fun e => e = IndexError \/ e = OverflowError)
              (split_row mrow total absorbing cols temp_r temp_q).
Proof.
  induction cols as [|col cols IH]; intros temp_r temp_q Ht; cbn [split_row];
    [apply raises_only_Ok|].
  apply raises_only_bind.
  { intros e He. left. eapply index_raises, He. }
  intros x _. apply raises_only_bind.
  { intros e He. right. eapply int_div_float_overflow; [exact Ht | exact He]. }
  intros v _. destruct (mem col absorbing); apply IH, Ht.
Qed.

Lemma split_rows_reading m n rows : forall r q,
  raises_only (fun e => e = IndexError \/ e = OverflowError)
              (split_rows m (find_absorbing m 0) n rows r q).
Proof.
  induction rows as [|row rows IH]; intros r q; cbn [split_rows];
    [apply raises_only_Ok|].
  destruct (mem row (find_absorbing m 0)) eqn:M; [apply IH|].
  rewrite mem_is_terminal in M.
  apply raises_only_bind.
  { intros e He. left. eapply index_raises, He. }
  intros mrow Hm. apply raises_only_bind.
  { intros e He. right. eapply float_of_int_overflow, He. }
  intros total Ht. apply raises_only_bind.
  { apply split_row_reading. eapply float_of_int_nonzero; [|exact Ht].
    unfold is_terminal, index in *. destruct (nth_error m row); [|discriminate].
    injection Hm as ->. apply Z.eqb_neq. exact M. }
  intros [temp_r temp_q] _. apply IH.
Qed.

Lemma columns_uniform (b : matrix) n :
  Forall (fun row => length row = n) b -> length b = n -> columns b = Some n.
Proof.
  intros H L. destruct b as [|r b']; [cbn in *; congruence|].
  cbn [columns]. apply Forall_cons_iff in H. destruct H as [Hr Hb].
  replace (forallb _ b') with true; [congruence|].
  symmetry. apply forallb_forall. intros r' Hin. rewrite Forall_forall in Hb.
  apply Nat.eqb_eq. rewrite Hr. apply Hb, Hin.
Qed.

Lemma identity_rows n : Forall (fun row => length row = n) (identity n).
Proof.
  unfold identity. apply Forall_map, Forall_forall. intros i _.
  rewrite length_map, length_seq. reflexivity.
Qed.

Lemma find_f_square_raises q n :
  Forall (fun row => length row = n) q -> length q = n ->
  raises_only (fun e => e = LinAlgError) (find_f_submatrix q).
Proof.
  intros Hq L. unfold find_f_submatrix. cbv zeta. subst n. unfold subtract.
  rewrite (columns_uniform (identity (length q)) _ (identity_rows _) (identity_length _)).
  rewrite (columns_uniform q _ Hq eq_refl).
  rewrite identity_length, !broadcast_same. cbn [bind].
  apply inv_raises.
Qed.

Lemma is_square_wide m :
  is_square m = true -> Forall (fun row => (length m <= length row)%nat) m.
Proof.
  unfold is_square. intros H. apply Forall_forall. intros row Hin.
  rewrite forallb_forall in H. specialize (H row Hin). apply Nat.eqb_eq in H. lia.
Qed.

Lemma solution_raises m :
  raises_only (fun e => e = LinAlgError \/ conversion e \/
                        (e = IndexError /\ is_square m = false))
              (solution m).
Proof.
  unfold solution.
  destruct (length m <=? 1)%nat eqn:E1; [apply raises_only_Ok|].
  destruct m as [|row0 m']; [discriminate E1|].
  cbn [index nth_error bind].
  destruct (sum row0 =? 0) eqn:S0; [apply raises_only_Ok|]. apply Z.eqb_neq in S0.
  set (m := row0 :: m') in *.
  destruct (split_matrix m) as [[r q]|e0] eqn:SM; cbn [bind].
  - unfold split_matrix in SM.
    apply (split_rows_shape _ _ _ (terminal_count m) (transient_count m)) in SM;
      [| apply terminal_columns | apply transient_columns | constructor | constructor].
    rewrite transient_columns in SM. cbn [length] in SM.
    destruct SM as (_ & Hq & _ & Lq).
    destruct (find_f_submatrix q) as [f|e0] eqn:F; cbn [bind].
    + assert (Hne : q <> []).
      { pose proof (transient_count_pos row0 m' S0). fold m in H.
        intros ->. cbn [length] in Lq. lia. }
      apply (find_f_nonempty q f Hne) in F.
      destruct f as [|f0 f']; [contradiction|].
      unfold dot. cbn [map index nth_error bind].
      intros e He. right. left. eapply probabilities_conversion, He.
    + intros e [= <-]. left.
      eapply (find_f_square_raises q (transient_count m)); [exact Hq | exact Lq | exact F].
  - intros e [= <-]. unfold split_matrix in SM.
    destruct (split_rows_reading _ _ _ _ _ _ SM) as [->| ->].
    + right. right. split; [reflexivity|].
      destruct (is_square m) eqn:Sq; [|reflexivity]. exfalso.
      apply is_square_wide in Sq.
      assert (A : arithmetic IndexError).
      { eapply (split_rows_raises_wide m); [| exact Sq | exact SM].
        apply Forall_forall. intros i Hi. apply in_seq in Hi. lia. }
      destruct A as [A|[A|A]]; discriminate A.
    + right. left. left. reflexivity.
Qed.

(** C5 (amended): the code makes no check of absorption and has no error
    of its own for a chain that never absorbs.  Whenever some transient
    state has no path to a terminal state, [absorption_fractions]
    - answers [1, 1] if the matrix has at most one row or row 0 sums to
      zero;
    - otherwise answers a list of one integer per terminal state and one
      more (just [1] when there is no terminal state at all), without any
      signal, or lets an exception of the libraries through: numpy's
      [LinAlgError] when the factorisation of [I - Q] meets a pivot that is
      exactly zero, [OverflowError] or [ValueError] from the conversions
      between ints, floats and fractions, [IndexError] only for a matrix
      that is not square.  It never raises [ZeroDivisionError].
    Both happen past the early return: the chain [trapped_leak] is answered
    [1, 2], numerators that do not add up to the denominator, and the chain
    [trapped_cycle] raises [LinAlgError].  On these two chains the
    inversion meets no rounding, so the outcome does not depend on the order
    in which numpy's BLAS takes the operations; in general rounding decides
    which singular [I - Q] are found to be singular.

    The hypothesis is the one of the claim.  The proof has no use for it:
    nothing in the code depends on whether the chain absorbs. *)
Theorem non_absorbing_not_reported :
  (forall m, non_absorbing m = true ->
     (early_return m /\ solution m = Ok [1; 1]) \/
     (~ early_return m /\
      ((exists out, solution m = Ok out /\ length out = S (terminal_count m) /\
                    (terminal_count m = 0%nat -> out = [1])) \/
       (exists e, solution m = Raise e /\
          (e = LinAlgError \/ e = OverflowError \/ e = ValueError \/
           (e = IndexError /\ is_square m = false)))))) /\
  (is_square trapped_leak = true /\ non_negative trapped_leak = true /\
   non_absorbing trapped_leak = true /\ solution trapped_leak = Ok [1; 2]) /\
  (is_square trapped_cycle = true /\ non_negative trapped_cycle = true /\
   non_absorbing trapped_cycle = true /\ solution trapped_cycle = Raise LinAlgError).
Proof.
  split; [|split; repeat split; vm_compute; reflexivity].
  intros m Hna. unfold early_return.
  destruct (le_gt_dec (length m) 1) as [Hshort|Hlong].
  { left. split; [left; exact Hshort | apply solution_short, Hshort]. }
  destruct m as [|row0 m']; [cbn in Hlong; lia|].
  destruct (Z.eq_dec (sum row0) 0) as [S0|S0].
  { left. split; [right; cbn; congruence | apply solution_start_terminal, S0]. }
  assert (Hrow0 : option_map sum (nth_error (row0 :: m') 0) <> Some 0)
    by (cbn; congruence).
  right. split; [intros [H|H]; [lia | contradiction]|].
  destruct (solution (row0 :: m')) as [out|e] eqn:So.
  - left. exists out. split; [reflexivity|].
    assert (Hn : (2 <= length (row0 :: m'))%nat) by (cbn [length] in *; lia).
    split; [eapply solution_shape; eassumption|].
    intros Ht. eapply solution_no_terminal; eassumption.
  - right. exists e. split; [reflexivity|].
    pose proof (solution_raises _ e So) as H. unfold conversion in H. tauto.
Qed.

Lemma non_absorbing_not_reported_witness :
  (early_return [[5; 0]; [0; 0]] /\ solution [[5; 0]; [0; 0]] = Ok [1; 1]) \/
  (~ early_return [[5; 0]; [0; 0]] /\
   ((exists out, solution [[5; 0]; [0; 0]] = Ok out /\
                 length out = S (terminal_count [[5; 0]; [0; 0]]) /\
                 (terminal_count [[5; 0]; [0; 0]] = 0%nat -> out = [1])) \/
    (exists e, solution [[5; 0]; [0; 0]] = Raise e /\
       (e = LinAlgError \/ e = OverflowError \/ e = ValueError \/
        (e = IndexError /\ is_square [[5; 0]; [0; 0]] = false))))).
Proof.
  apply (proj1 non_absorbing_not_reported [[5; 0]; [0; 0]]). reflexivity.
Defined.

End NonAbsorbing.
